(** * gravsim: the physics worker (gravsim_calc.js) and its host-side hooks

    The worker keeps an array of bodies, integrates them once per timer
    tick, marks colliding bodies, reports the state to the host and then
    purges the marked bodies.  The array of mutable objects is modelled as
    a [list] addressed by index; every in-place assignment of the source
    is an indexed write into that list.

    JavaScript numbers are kept abstract behind the interface [JSNumber].
    Two instances are given: IEEE-754 binary64 (Rocq's primitive floats,
    bit-for-bit what a JavaScript engine computes) and the real numbers
    (the arithmetic the formulas are meant to approximate). *)

From Stdlib Require Import ZArith List Bool Lia String.
From Stdlib Require Import Reals Lra.
From Stdlib Require Import Floats.
From stdpp Require Import base list.
Import ListNotations.

Set Default Proof Using "Type".

(* ================================================================== *)
(** * JavaScript numbers *)
(* ================================================================== *)

(** The operations gravsim_calc.js applies to numbers. *)
Class JSNumber (num : Type) : Type := {
  nofZ   : Z -> num;              (* an integer literal *)
  nadd   : num -> num -> num;     (* a + b *)
  nsub   : num -> num -> num;     (* a - b *)
  nmul   : num -> num -> num;     (* a * b *)
  ndiv   : num -> num -> num;     (* a / b *)
  nsqrt  : num -> num;            (* Math.sqrt(a) *)
  nmax   : num -> num -> num;     (* Math.max(a, b) *)
  nlt    : num -> num -> bool;    (* a < b *)
  nfalsy : num -> bool;           (* !a : a is 0, -0 or NaN *)
}.

Declare Scope js_scope.
Delimit Scope js_scope with js.
Infix "+" := nadd : js_scope.
Infix "-" := nsub : js_scope.
Infix "*" := nmul : js_scope.
Infix "/" := ndiv : js_scope.
Infix "<?" := nlt : js_scope.

(** Facts about [<] and truthiness that hold for doubles and reals alike
    and that involve no rounding. *)
Class JSNumberLaws (num : Type) `{JSNumber num} : Prop := {
  nlt_asym : forall a b : num, nlt a b = true -> nlt b a = false;
  nfalsy_one : nfalsy (nofZ 1) = false;
  nfalsy_zero : nfalsy (nofZ 0) = true;
  nlt_zero_truthy : forall a : num, nlt a (nofZ 0) = true -> nfalsy a = false;
}.

(** ** IEEE-754 doubles *)
Module F64.

Definition of_Z (z : Z) : float :=
  if (z <? 0)%Z then PrimFloat.opp (PrimFloat.of_uint63 (Uint63.of_Z (- z)))
  else PrimFloat.of_uint63 (Uint63.of_Z z).

(** Math.max: NaN if either argument is NaN, and +0 is larger than -0. *)
Definition max (a b : float) : float :=
  if PrimFloat.is_nan a || PrimFloat.is_nan b then PrimFloat.nan
  else if PrimFloat.ltb a b then b
  else if PrimFloat.ltb b a then a
  else if PrimFloat.get_sign a then b else a.

Definition falsy (a : float) : bool :=
  PrimFloat.eqb a PrimFloat.zero || PrimFloat.is_nan a.

End F64.

#[export] Instance float_JSNumber : JSNumber float := {|
  nofZ := F64.of_Z;
  nadd := PrimFloat.add;
  nsub := PrimFloat.sub;
  nmul := PrimFloat.mul;
  ndiv := PrimFloat.div;
  nsqrt := PrimFloat.sqrt;
  nmax := F64.max;
  nlt := PrimFloat.ltb;
  nfalsy := F64.falsy;
|}.

(** ** Real numbers

    Exact arithmetic.  Division and square root are the total functions
    of the real-number library; the program takes square roots of sums of
    squares only, and C9 below shows when its divisors are nonzero. *)
Module Real.

Definition ltb (a b : R) : bool := if Rlt_dec a b then true else false.
Definition falsy (a : R) : bool := if Req_dec_T a 0%R then true else false.

End Real.

#[export] Instance R_JSNumber : JSNumber R := {|
  nofZ := IZR;
  nadd := Rplus;
  nsub := Rminus;
  nmul := Rmult;
  ndiv := Rdiv;
  nsqrt := R_sqrt.sqrt;
  nmax := Rmax;
  nlt := Real.ltb;
  nfalsy := Real.falsy;
|}.

(* ================================================================== *)
(** * The worker: gravsim_calc.js *)
(* ================================================================== *)

Section Engine.

Context {num : Type} `{JSNumber num}.
Local Open Scope js_scope.

(** A decimal literal m·10^-e; with doubles the single division rounds
    exactly as the parser does whenever m and 10^e are below 2^53 and
    10^22 respectively. *)
Definition decimal (m : Z) (e : nat) : num := nofZ m / nofZ (10 ^ Z.of_nat e).

Definition G : num := decimal 66743 15.                  (* 6.67430e-11 *)
Definition YEARS_PER_SECOND : num :=
  nofZ 60 * nofZ 60 * nofZ 24 * decimal 36525 2.          (* 60*60*24*365.25 *)
Definition C : num := nofZ 299792458.                    (* 2.99792458e8 *)
Definition TIME_SCALE : num := nofZ 1000.                (* 1e3 *)

(** The object literal built by the 'add' command; [collided] is absent
    (falsy) until collisionCheck sets it. *)
Record Obj : Type := mkObj {
  oid : Z;
  ox : num;  oy : num;
  ovx : num; ovy : num;
  oax : num; oay : num;
  omass : num;
  oradius : num;
  ocollided : bool;
}.

Definition set_ox (v : num) (o : Obj) : Obj :=
  mkObj (oid o) v (oy o) (ovx o) (ovy o) (oax o) (oay o) (omass o) (oradius o) (ocollided o).
Definition set_oy (v : num) (o : Obj) : Obj :=
  mkObj (oid o) (ox o) v (ovx o) (ovy o) (oax o) (oay o) (omass o) (oradius o) (ocollided o).
Definition set_ovx (v : num) (o : Obj) : Obj :=
  mkObj (oid o) (ox o) (oy o) v (ovy o) (oax o) (oay o) (omass o) (oradius o) (ocollided o).
Definition set_ovy (v : num) (o : Obj) : Obj :=
  mkObj (oid o) (ox o) (oy o) (ovx o) v (oax o) (oay o) (omass o) (oradius o) (ocollided o).
Definition set_oax (v : num) (o : Obj) : Obj :=
  mkObj (oid o) (ox o) (oy o) (ovx o) (ovy o) v (oay o) (omass o) (oradius o) (ocollided o).
Definition set_oay (v : num) (o : Obj) : Obj :=
  mkObj (oid o) (ox o) (oy o) (ovx o) (ovy o) (oax o) v (omass o) (oradius o) (ocollided o).
Definition set_omass (v : num) (o : Obj) : Obj :=
  mkObj (oid o) (ox o) (oy o) (ovx o) (ovy o) (oax o) (oay o) v (oradius o) (ocollided o).
Definition set_ocollided (v : bool) (o : Obj) : Obj :=
  mkObj (oid o) (ox o) (oy o) (ovx o) (ovy o) (oax o) (oay o) (omass o) (oradius o) v.

(** The payload of a host command.  [None] is an absent, undefined or
    null field. *)
Record Data : Type := mkData {
  d_id : Z;
  d_x : num;  d_y : num;
  d_vx : option num; d_vy : option num;
  d_ax : option num; d_ay : option num;
  d_mass : option num;
  d_radius : option num;
}.

Inductive Command : Type :=
  | CmdAdd (data : Data)
  | CmdRemove (id : Z)
  | CmdUpdate (data : Data)
  | CmdSetTimeScale (timeScale : option num)   (* [None]: typeof is not 'number' *)
  | CmdUnknown.

(** The fields of the GravSimCalc instance. *)
Record GravSimCalc : Type := mkCalc {
  lastTime : num;
  objects : list Obj;
  timeScale : num;
}.

(** constructor *)
Definition init : GravSimCalc :=
  {| lastTime := nofZ 0; objects := []; timeScale := nofZ 1 |}.

(** [field || dflt] *)
Definition orElse (field : option num) (dflt : num) : num :=
  match field with
  | Some v => if nfalsy v then dflt else v
  | None => dflt
  end.

Definition newObj (data : Data) : Obj :=
  {| oid := d_id data;
     ox := d_x data;
     oy := d_y data;
     ovx := orElse (d_vx data) (nofZ 0);
     ovy := orElse (d_vy data) (nofZ 0);
     oax := orElse (d_ax data) (nofZ 0);
     oay := orElse (d_ay data) (nofZ 0);
     omass := orElse (d_mass data) (nofZ 1);
     oradius := orElse (d_radius data) (nofZ 1);
     ocollided := false |}.

(** The assignments of the 'update' command on the found object. *)
Definition objToUpdate (data : Data) (o : Obj) : Obj :=
  {| oid := oid o;
     ox := d_x data;
     oy := d_y data;
     ovx := orElse (d_vx data) (nofZ 0);
     ovy := orElse (d_vy data) (nofZ 0);
     oax := orElse (d_ax data) (nofZ 0);
     oay := orElse (d_ay data) (nofZ 0);
     omass := orElse (d_mass data) (omass o);
     oradius := oradius o;
     ocollided := ocollided o |}.

Definition onmessage (cmd : Command) (this : GravSimCalc) : GravSimCalc :=
  match cmd with
  | CmdAdd data =>
      mkCalc (lastTime this) (objects this ++ [newObj data]) (timeScale this)
  | CmdRemove id =>
      mkCalc (lastTime this) (filter (fun obj => oid obj <> id) (objects this)) (timeScale this)
  | CmdUpdate data =>
      match list_find (fun obj => oid obj = d_id data) (objects this) with
      | Some (i, o) =>
          mkCalc (lastTime this) (<[i := objToUpdate data o]> (objects this)) (timeScale this)
      | None => this
      end
  | CmdSetTimeScale (Some ts) =>
      if nofZ 0 <? ts then mkCalc (lastTime this) (objects this) ts else this
  | CmdSetTimeScale None => this
  | CmdUnknown => this
  end.

(** The constants distSq and dist of applyGravity. *)
Definition distSq (obj1 obj2 : Obj) : num :=
  let dx := ox obj2 - ox obj1 in
  let dy := oy obj2 - oy obj1 in
  nmax (dx * dx + dy * dy)
       ((oradius obj1 + oradius obj2) * (oradius obj1 + oradius obj2)).

Definition dist (obj1 obj2 : Obj) : num := nsqrt (distSq obj1 obj2).

(** applyGravity(obj1, obj2): the new contents of obj1. *)
Definition applyGravity (obj1 obj2 : Obj) : Obj :=
  let dx := ox obj2 - ox obj1 in
  let dy := oy obj2 - oy obj1 in
  let distSq := distSq obj1 obj2 in
  let dist := dist obj1 obj2 in
  let force := (G * omass obj1 * omass obj2) / distSq in
  let accel := force / omass obj1 in
  let obj1 := set_oax (oax obj1 + accel * dx / dist) obj1 in
  set_oay (oay obj1 + accel * dy / dist) obj1.

(** One entry of the report sent to the host. *)
Record Msg : Type := mkMsg {
  m_id : Z;
  m_x : num;  m_y : num;
  m_vx : num; m_vy : num;
  m_ax : num; m_ay : num;
  m_collided : bool;
}.

Definition convertToMessage (objs : list Obj) : list Msg :=
  map (fun obj =>
         {| m_id := oid obj;
            m_x := orElse (Some (ox obj)) (nofZ 0);
            m_y := orElse (Some (oy obj)) (nofZ 0);
            m_vx := orElse (Some (ovx obj)) (nofZ 0);
            m_vy := orElse (Some (ovy obj)) (nofZ 0);
            m_ax := orElse (Some (oax obj)) (nofZ 0);
            m_ay := orElse (Some (oay obj)) (nofZ 0);
            m_collided := ocollided obj || false |}) objs.

Definition isColliding (obj1 obj2 : Obj) : bool :=
  let dx := ox obj2 - ox obj1 in
  let dy := oy obj2 - oy obj1 in
  let distSq := dx * dx + dy * dy in
  let radiusSum := oradius obj1 + oradius obj2 in
  distSq <? radiusSum * radiusSum.

(** The body of the inner loop of collisionCheck for the indices i, j. *)
Definition collidePair (i j : nat) (objs : list Obj) : list Obj :=
  match objs !! i, objs !! j with
  | Some obj, Some other =>
      if negb (oid obj =? oid other)%Z then
        if isColliding obj other then
          if omass obj <? omass other
          then <[i := set_ocollided true obj]> objs
          else <[j := set_ocollided true other]> objs
        else objs
      else objs
  | _, _ => objs
  end.

Definition collisionCheck (objs : list Obj) : list Obj :=
  fold_left
    (fun objs i =>
       fold_left (fun objs j => collidePair i j objs)
                 (seq (S i) (length objs - S i)) objs)
    (seq 0 (length objs)) objs.

(** The body of the loop of updateGravity for the index j; [i] is the
    position of [obj] in the array. *)
Definition gravityFrom (i j : nat) (objs : list Obj) : list Obj :=
  match objs !! i, objs !! j with
  | Some obj, Some other =>
      if negb (oid obj =? oid other)%Z
      then <[i := applyGravity obj other]> objs
      else objs
  | _, _ => objs
  end.

Definition updateGravity (i : nat) (objs : list Obj) : list Obj :=
  let objs := alter (fun obj => set_oay (nofZ 0) (set_oax (nofZ 0) obj)) i objs in
  fold_left (fun objs j => gravityFrom i j objs) (seq 0 (length objs)) objs.

(** The body of the loop of update for the index i. *)
Definition moveObject (dt : num) (objs : list Obj) (i : nat) : list Obj :=
  let objs := updateGravity i objs in
  match objs !! i with
  | None => objs
  | Some obj =>
    let half_vx := ovx obj + oax obj * dt / nofZ 2 in
    let half_vy := ovy obj + oay obj * dt / nofZ 2 in
    let objs := alter (fun obj => set_ox (ox obj + half_vx * dt) obj) i objs in
    let objs := alter (fun obj => set_oy (oy obj + half_vy * dt) obj) i objs in
    let objs := updateGravity i objs in
    let objs := alter (fun obj => set_ovx (half_vx + oax obj * dt / nofZ 2) obj) i objs in
    let objs := alter (fun obj => set_ovy (half_vy + oay obj * dt / nofZ 2) obj) i objs in
    match objs !! i with
    | None => objs
    | Some obj =>
      let v := nsqrt (ovx obj * ovx obj + ovy obj * ovy obj) in
      if C <? v then
        let objs := alter (fun obj => set_ovx (C * (ovx obj / v)) obj) i objs in
        alter (fun obj => set_ovy (C * (ovy obj / v)) obj) i objs
      else objs
    end
  end.

(** The message posted at the end of a tick. *)
Record Report : Type := mkReport {
  deltaTime : num;
  r_objects : list Msg;
}.

(** The first statements of update(): the step length of the tick. *)
Definition tickDt (now : num) (this : GravSimCalc) : num :=
  (now - lastTime this) * YEARS_PER_SECOND / TIME_SCALE * timeScale this.

(** The array after the integration loop and collisionCheck, as it is
    when the report is posted. *)
Definition tickObjects (now : num) (this : GravSimCalc) : list Obj :=
  let dt := tickDt now this in
  let objs := fold_left (moveObject dt) (seq 0 (length (objects this))) (objects this) in
  collisionCheck objs.

(** update(), with the value of Date.now() as an argument; the posted
    message is returned next to the new state. *)
Definition update (now : num) (this : GravSimCalc) : GravSimCalc * Report :=
  let dt := tickDt now this in
  let objs := tickObjects now this in
  let report := {| deltaTime := dt; r_objects := convertToMessage objs |} in
  (mkCalc now (filter (fun obj => ocollided obj = false) objs) (timeScale this), report).

(** What the worker sees: timer ticks (with the clock reading) and host
    messages, one at a time. *)
Inductive Event : Type :=
  | EvTick (now : num)
  | EvMessage (cmd : Command).

Fixpoint run (evs : list Event) (this : GravSimCalc) : GravSimCalc * list Report :=
  match evs with
  | [] => (this, [])
  | EvTick now :: evs =>
      let (this', r) := update now this in
      let (final, rs) := run evs this' in
      (final, r :: rs)
  | EvMessage cmd :: evs => run evs (onmessage cmd this)
  end.

(** ** The formulas of the specification

    The definitions below follow the wording of the specification; the
    theorems compare them with the in-place code above. *)

(** Euclidean norm of the velocity. *)
Definition speed (b : Obj) : num := nsqrt (ovx b * ovx b + ovy b * ovy b).

(** Acceleration of [b] caused by [o]: G·m_b·m_o/distSq, divided by m_b,
    along (dx, dy)/dist, with distSq clamped below by (radiusSum)². *)
Definition contribution (b o : Obj) : num * num :=
  let dx := ox o - ox b in
  let dy := oy o - oy b in
  let dSq := nmax (dx * dx + dy * dy)
                  ((oradius b + oradius o) * (oradius b + oradius o)) in
  let d := nsqrt dSq in
  let accel := (G * omass b * omass o / dSq) / omass b in
  (accel * dx / d, accel * dy / d).

(** Sum of the contributions of all bodies other than [b], from zero. *)
Definition accumulate (b : Obj) (others : list Obj) : num * num :=
  fold_left
    (fun a o =>
       if (oid b =? oid o)%Z then a
       else (fst a + fst (contribution b o), snd a + snd (contribution b o)))
    others (nofZ 0, nofZ 0).

(** The two-stage velocity-Verlet update of one body. *)
Definition verlet (dt : num) (b : Obj) (others : list Obj) : Obj :=
  let a := accumulate b others in
  let vx_half := ovx b + fst a * dt / nofZ 2 in
  let vy_half := ovy b + snd a * dt / nofZ 2 in
  let x_new := ox b + vx_half * dt in
  let y_new := oy b + vy_half * dt in
  let a_new := accumulate (set_oy y_new (set_ox x_new b)) others in
  mkObj (oid b) x_new y_new
        (vx_half + fst a_new * dt / nofZ 2) (vy_half + snd a_new * dt / nofZ 2)
        (fst a_new) (snd a_new)
        (omass b) (oradius b) (ocollided b).

(** The hard speed cap. *)
Definition speedCap (b : Obj) : Obj :=
  if C <? speed b
  then set_ovy (C * (ovy b / speed b)) (set_ovx (C * (ovx b / speed b)) b)
  else b.

(** positionAt(t): second-order Taylor extrapolation of the position. *)
Definition positionAt (t : num) (b : Obj) : num * num :=
  (ox b + ovx b * t + nofZ 1 / nofZ 2 * oax b * t * t,
   oy b + ovy b * t + nofZ 1 / nofZ 2 * oay b * t * t).

(** The detector the specification describes: collision at once if the
    bodies overlap now, otherwise if they overlap at one of the sub-steps
    k·dt/N, k = 0..N, of their extrapolated motion. *)
Definition spec_twoTierCollision (N : nat) (dt : num) (b1 b2 : Obj) : bool :=
  let radiusSum := oradius b1 + oradius b2 in
  isColliding b1 b2
  || existsb (fun k =>
                let t := dt * nofZ (Z.of_nat k) / nofZ (Z.of_nat N) in
                let dx := fst (positionAt t b2) - fst (positionAt t b1) in
                let dy := snd (positionAt t b2) - snd (positionAt t b1) in
                dx * dx + dy * dy <? radiusSum * radiusSum)
             (seq 0 (S N)).

(** ** Auxiliary notions used in the proofs *)

(** [b] with its acceleration replaced. *)
Definition withAccel (a : num * num) (b : Obj) : Obj :=
  set_oay (snd a) (set_oax (fst a) b).

(** One iteration of the sum in [accumulate]. *)
Definition accStep (b : Obj) (a : num * num) (o : Obj) : num * num :=
  if (oid b =? oid o)%Z then a
  else (fst a + fst (contribution b o), snd a + snd (contribution b o)).

(** [b] with the flag [collided] erased: collisionCheck writes nothing
    but that flag. *)
Definition clearFlag (b : Obj) : Obj := set_ocollided false b.

(** One of the entries i and j of the array carries the flag. *)
Definition oneMarked (i j : nat) (objs : list Obj) : Prop :=
  exists obj' other',
    objs !! i = Some obj' /\ objs !! j = Some other'
    /\ (ocollided obj' = true \/ ocollided other' = true).

End Engine.

#[global] Arguments Obj : clear implicits.
#[global] Arguments Data : clear implicits.
#[global] Arguments Command : clear implicits.
#[global] Arguments GravSimCalc : clear implicits.
#[global] Arguments Msg : clear implicits.
#[global] Arguments Report : clear implicits.
#[global] Arguments Event : clear implicits.

(* ================================================================== *)
(** * The host: GravSimObject of gravsim.js *)
(* ================================================================== *)

Module Host.

Inductive OBJECT_STATE : Type := ACTIVE | REMOVED | HISTORY_DONE.

(** DEFAULT_OBJECT_PARAMS["Sun"].NAME *)
Definition SUN_NAME : string := "Sun".

(** The fields of a GravSimObject that setCollided reads and writes. *)
Record GravSimObject : Type := mkGravSimObject {
  name : string;
  id : Z;
  state : OBJECT_STATE;
}.

Definition setCollided (this : GravSimObject) : GravSimObject :=
  if String.eqb (name this) SUN_NAME then this
  else mkGravSimObject (name this) (id this) REMOVED.

End Host.

(* ================================================================== *)
(** * Event traces of the worker *)
(* ================================================================== *)

Section Traces.

Context {num : Type} `{JSNumber num}.

(** The clock readings of the ticks of a trace, in order. *)
Definition tickTimes (evs : list (Event num)) : list num :=
  omap (fun ev => match ev with EvTick now => Some now | EvMessage _ => None end) evs.

(** The ids carried by the 'add' commands of a trace, in order. *)
Definition addIds (evs : list (Event num)) : list Z :=
  omap (fun ev => match ev with
                  | EvMessage (CmdAdd data) => Some (d_id data)
                  | _ => None
                  end) evs.

(** Does the event change the time scale? *)
Definition isSetTimeScale (ev : Event num) : bool :=
  match ev with EvMessage (CmdSetTimeScale _) => true | _ => false end.

(** A reason for collisionCheck to mark the body at index k: a body with
    another id that overlaps it and that is met either later in the array
    and strictly heavier, or earlier in the array and not strictly
    lighter. *)
Definition markCause (objs : list (Obj num)) (k : nat) : Prop :=
  exists (j : nat) bk bj,
    objs !! k = Some bk /\ objs !! j = Some bj /\ oid bk <> oid bj
    /\ ((k < j)%nat /\ isColliding bk bj = true /\ nlt (omass bk) (omass bj) = true
        \/ (j < k)%nat /\ isColliding bj bk = true /\ nlt (omass bj) (omass bk) = false).

(** The entry at index k carries the flag. *)
Definition markedAt (objs : list (Obj num)) (k : nat) : Prop :=
  exists b, objs !! k = Some b /\ ocollided b = true.

(** The index that the resolution of the colliding pair at (i, j) writes:
    the first if its mass is lower, the second otherwise. *)
Definition loserOf (i j : nat) (obj other : Obj num) : nat :=
  if nlt (omass obj) (omass other) then i else j.

(** The array when the loop of update reaches the index i: the bodies
    before i advanced, the others not yet. *)
Definition reached (dt : num) (objs : list (Obj num)) (i : nat) : list (Obj num) :=
  fold_left (moveObject dt) (seq 0 i) objs.

(** The payload that repeats the current fields of a body. *)
Definition ownData (b : Obj num) : Data num :=
  mkData (oid b) (ox b) (oy b) (Some (ovx b)) (Some (ovy b))
         (Some (oax b)) (Some (oay b)) (Some (omass b)) (Some (oradius b)).

(** The id, mass and radius of a body: what a tick never changes. *)
Definition identity (b : Obj num) : Z * num * num := (oid b, omass b, oradius b).

End Traces.

(* ================================================================== *)
(** * The host: objects, units and worker messages of gravsim.js *)
(* ================================================================== *)

Module View.

Section WithNumbers.

Context {num : Type} `{JSNumber num}.
Local Open Scope js_scope.

Definition METERS_PER_AU : num := nofZ 149597870700.
Definition HISTORY_LENGTH : nat := 512.
Definition DISTANCE_SCALE : num := nofZ 180.
Definition THROW_SCALE : num := nofZ 40000000000000000.    (* 4e16 *)
Definition TIME_SCALE : num := nofZ 1000.                   (* 1e3 *)

Definition AU2M (au : num) : num := au * METERS_PER_AU.
Definition M2AU (m : num) : num := m / METERS_PER_AU.

(** Universe.pix2au, au2pix, m2pix, pix2m *)
Definition pix2au (px : num) : num := px / DISTANCE_SCALE.
Definition au2pix (au : num) : num := au * DISTANCE_SCALE.
Definition m2pix (m : num) : num := au2pix (M2AU m).
Definition pix2m (px : num) : num := AU2M (pix2au px).

(** The fields of a GravSimObject other than color and size, which only
    draw() reads.  [mass = None] is NaN and [radius = None] is undefined:
    the values updateObjectParams stores, the report carrying neither
    field (undefined / 1e3 is NaN). *)
Record GravSimObject : Type := mkGravSimObject {
  name : string;
  id : Z;
  x : num;  y : num;
  vx : num; vy : num;
  ax : num; ay : num;
  mass : option num;
  radius : option num;
  state : Host.OBJECT_STATE;
  history : list (num * num);
}.

Definition isActive (s : Host.OBJECT_STATE) : bool :=
  match s with Host.ACTIVE => true | _ => false end.
Definition isRemoved (s : Host.OBJECT_STATE) : bool :=
  match s with Host.REMOVED => true | _ => false end.
Definition isSun (this : GravSimObject) : bool := String.eqb (name this) Host.SUN_NAME.

(** GravSimObject._idCounter++.  The counter is a double that holds an
    integer [c].  Adding 1 is exact as long as the sum has magnitude at
    most 2^53; beyond that the sum lies half-way between two doubles and
    is rounded to the one with the even significand, so that 2^53 + 1 is
    2^53 again ([increment_on_doubles] below compares this with the
    addition of the doubles). *)
Definition increment (c : Z) : Z :=
  if (Z.abs (c + 1) <=? 2 ^ 53)%Z then (c + 1)%Z
  else if Z.odd (c / 2) then (c + 2)%Z
  else c.

(** constructor: the object and the new value of the static counter
    GravSimObject._idCounter (read as 0 while it is undefined). *)
Definition construct (idCounter : Z) (name : string) (x y vx vy mass radius : num)
  : GravSimObject * Z :=
  (mkGravSimObject name idCounter x y vx vy (nofZ 0) (nofZ 0) (Some mass) (Some radius)
                   Host.ACTIVE [],
   increment idCounter).

Definition set_history (h : list (num * num)) (this : GravSimObject) : GravSimObject :=
  mkGravSimObject (name this) (id this) (x this) (y this) (vx this) (vy this)
                  (ax this) (ay this) (mass this) (radius this) (state this) h.

Definition addHistory (this : GravSimObject) : GravSimObject :=
  if negb (isActive (state this)) then this
  else if isSun this then this
  else
    let h := if (HISTORY_LENGTH <=? length (history this))%nat
             then tail (history this) else history this in
    set_history (h ++ [(x this, y this)]) this.

Definition updateHistory (this : GravSimObject) : GravSimObject :=
  if isActive (state this) then this
  else if isSun this then this
  else if (0 <? length (history this))%nat then set_history (tail (history this)) this
  else this.

Definition finished (this : GravSimObject) : bool :=
  isRemoved (state this) && (length (history this) =? 0)%nat.

Definition setCollided (this : GravSimObject) : GravSimObject :=
  if isSun this then this
  else mkGravSimObject (name this) (id this) (x this) (y this) (vx this) (vy this)
                       (ax this) (ay this) (mass this) (radius this) Host.REMOVED
                       (history this).

Definition setPosition (x' y' : num) (this : GravSimObject) : GravSimObject :=
  mkGravSimObject (name this) (id this) x' y' (vx this) (vy this)
                  (ax this) (ay this) (mass this) (radius this) (state this) (history this).

Definition setVelocity (vx' vy' : num) (this : GravSimObject) : GravSimObject :=
  mkGravSimObject (name this) (id this) (x this) (y this) vx' vy'
                  (ax this) (ay this) (mass this) (radius this) (state this) (history this).

Definition resetGravity (this : GravSimObject) : GravSimObject :=
  mkGravSimObject (name this) (id this) (x this) (y this) (vx this) (vy this)
                  (nofZ 0) (nofZ 0) (mass this) (radius this) (state this) (history this).

(** getRelativeX(basis), getRelativeY(basis); [None] is a falsy basis. *)
Definition getRelativeX (basis : option GravSimObject) (this : GravSimObject) : num :=
  match basis with Some b => x this - x b | None => x this end.
Definition getRelativeY (basis : option GravSimObject) (this : GravSimObject) : num :=
  match basis with Some b => y this - y b | None => y this end.

(** transformRelativeCordinate(basis), with the velocity of the basis as
    read at the call. *)
Definition transformRelativeCordinate (basis : GravSimObject) (this : GravSimObject)
  : GravSimObject :=
  if negb (isActive (state this)) || negb (isActive (state basis)) then this
  else
    mkGravSimObject (name this) (id this) (x this + vx basis) (y this + vy basis)
                    (vx this) (vy this) (ax this) (ay this) (mass this) (radius this)
                    (state this)
                    (map (fun p => (fst p + vx basis, snd p + vy basis)) (history this)).

(** The message posted by Universe.addObject and by Universe.updateObject
    (the two carry the same fields).  A NaN mass times 1e3 is NaN, which
    the worker treats like an absent field. *)
Definition objectData (obj : GravSimObject) : Data num :=
  {| d_id := id obj;
     d_x := pix2m (x obj);  d_y := pix2m (y obj);
     d_vx := Some (pix2m (vx obj)); d_vy := Some (pix2m (vy obj));
     d_ax := Some (pix2m (ax obj)); d_ay := Some (pix2m (ay obj));
     d_mass := option_map (fun m => m * nofZ 1000) (mass obj);
     d_radius := radius obj |}.

(** Universe.addObject: the new array and the posted message. *)
Definition addObject (obj : GravSimObject) (objects : list GravSimObject)
  : list GravSimObject * Command num :=
  (objects ++ [obj], CmdAdd (objectData obj)).

(** Universe.removeObject for the object at index i. *)
Definition removeObject (i : nat) (objects : list GravSimObject)
  : list GravSimObject * option (Command num) :=
  match objects !! i with
  | Some obj => (<[i := setCollided obj]> objects, Some (CmdRemove (id obj)))
  | None => (objects, None)
  end.

(** Universe.updateObject *)
Definition updateObject (obj : GravSimObject) : Command num := CmdUpdate (objectData obj).

(** The assignments of updateObjectParams on the target of one report
    entry, followed by addHistory and, for a collided entry, setCollided. *)
Definition applyEntry (m : Msg num) (target : GravSimObject) : GravSimObject :=
  let target :=
    mkGravSimObject (name target) (id target)
                    (m2pix (m_x m)) (m2pix (m_y m))
                    (m2pix (m_vx m)) (m2pix (m_vy m))
                    (m2pix (m_ax m)) (m2pix (m_ay m))
                    None None (state target) (history target) in
  let target := addHistory target in
  if m_collided m then setCollided target else target.

(** Universe.updateObjectParams(data): for every entry of the report the
    first object with its id is updated; entries of unknown ids are
    skipped. *)
Definition updateObjectParams (data : Report num) (objects : list GravSimObject)
  : list GravSimObject :=
  fold_left
    (fun objects m =>
       match list_find (fun target => id target = m_id m) objects with
       | Some (i, target) => <[i := applyEntry m target]> objects
       | None => objects
       end)
    (r_objects data) objects.

(** Universe.removeFinished *)
Definition removeFinished (objects : list GravSimObject) : list GravSimObject :=
  filter (fun obj => finished obj = false) objects.

(** The per-frame loop of Universe.update over the trails. *)
Definition updateHistories (objects : list GravSimObject) : list GravSimObject :=
  map updateHistory objects.

(** ObjectPlacer.goLaunch: the velocity handed to placeObject for a drag
    from (startX, startY) at startTime to (endX, endY) at endTime. *)
Definition launchDt (startTime endTime : num) : num :=
  nmax ((endTime - startTime) / TIME_SCALE) (decimal 1 2).
Definition launchVelocity (startX startY startTime endX endY endTime : num) : num * num :=
  let dt := launchDt startTime endTime in
  (pix2m ((endX - startX) / dt / THROW_SCALE),
   pix2m ((endY - startY) / dt / THROW_SCALE)).

(** What the host does to its array between frames. *)
Inductive Step : Type :=
  | StReport (data : Report num)       (* a report of the worker arrives *)
  | StRemove (i : nat)                 (* removeObject on objects[i] *)
  | StHistories                        (* updateHistory on every object *)
  | StRemoveFinished                   (* removeFinished *)
  | StAdd (obj : GravSimObject).       (* addObject *)

Definition step (st : Step) (objects : list GravSimObject) : list GravSimObject :=
  match st with
  | StReport data => updateObjectParams data objects
  | StRemove i => fst (removeObject i objects)
  | StHistories => updateHistories objects
  | StRemoveFinished => removeFinished objects
  | StAdd obj => fst (addObject obj objects)
  end.

Definition steps (sts : list Step) (objects : list GravSimObject) : list GravSimObject :=
  fold_left (fun objects st => step st objects) sts objects.

(** Successive calls of the constructor, each with (name, x, y, vx, vy,
    mass, radius), threading the static counter. *)
Fixpoint constructAll (idCounter : Z)
    (args : list (string * num * num * num * num * num * num))
  : list GravSimObject * Z :=
  match args with
  | [] => ([], idCounter)
  | (name, x, y, vx, vy, mass, radius) :: args =>
      let (obj, idCounter) := construct idCounter name x y vx vy mass radius in
      let (objs, idCounter) := constructAll idCounter args in
      (obj :: objs, idCounter)
  end.

(** A trail of at most HISTORY_LENGTH points. *)
Definition boundedTrail (this : GravSimObject) : Prop :=
  (length (history this) <= HISTORY_LENGTH)%nat.

(** The array still starts with [sun]: same name and id, active, same
    trail. *)
Definition sunKept (sun : GravSimObject) (objects : list GravSimObject) : Prop :=
  exists sun', objects !! 0%nat = Some sun'
               /\ name sun' = name sun /\ id sun' = id sun
               /\ state sun' = Host.ACTIVE
               /\ history sun' = history sun.

(** The part of an object that the minimal record [Host.GravSimObject]
    keeps. *)
Definition core (this : GravSimObject) : Host.GravSimObject :=
  Host.mkGravSimObject (name this) (id this) (state this).

End WithNumbers.

#[global] Arguments GravSimObject : clear implicits.
#[global] Arguments Step : clear implicits.

End View.

(* ================================================================== *)
(** * Concrete runs on doubles *)
(* ================================================================== *)

Module Scenario.

#[local] Set Warnings "-inexact-float".
#[local] Open Scope float_scope.

(** An 'add' payload without ax, ay. *)
Definition payload (id : Z) (x y : float) (vx vy mass radius : option float) : Data float :=
  mkData id x y vx vy None None mass radius.

(** Two light bodies on the x axis, 10^9 m apart, the second one moving
    towards the first at 4 km/s; radii 10^8 m. *)
Definition passingPair : list (Event float) :=
  [ EvTick 1000;
    EvMessage (CmdAdd (payload 0 0 0 None None (Some 1) (Some 1e8)));
    EvMessage (CmdAdd (payload 1 1e9 0 (Some (-4000)) None (Some 1) (Some 1e8))) ].

(** The masses the host sends for its presets "Sun" and "BlackHole"
    (MASS is kept in tons and multiplied by 1e3 in addObject). *)
Definition sunMass : float := 1.9891e30 / 1e3 * 1e3.
Definition blackHoleMass : float := 1.9891e30 * 10 / 1e3 * 1e3.

(** The Sun (id 0, the first body the host creates) and a black hole
    placed 10^8 m from its centre, inside its radius. *)
Definition sunAndBlackHole : list (Event float) :=
  [ EvTick 1000;
    EvMessage (CmdSetTimeScale (Some 1e-6));
    EvMessage (CmdAdd (payload 0 0 0 None None (Some sunMass) (Some 6.96340e8)));
    EvMessage (CmdAdd (payload 1 1e8 0 None None (Some blackHoleMass) (Some 3e4))) ].

Definition hostSun : Host.GravSimObject := Host.mkGravSimObject "Sun" 0 Host.ACTIVE.


(** Three timer ticks: two within the same millisecond, then one after
    the clock was set back by a millisecond. *)
Definition sameMillisecond : list (Event float) :=
  [ EvTick 1000; EvTick 1000; EvTick 999 ].

(** Two bodies with radius 1e-200 at the same place. *)
Definition tinyA : Obj float := newObj (payload 0 0 0 None None None (Some 1e-200)).
Definition tinyB : Obj float := newObj (payload 1 0 0 None None None (Some 1e-200)).

(** Three overlapping bodies of masses 1, 2 and 2. *)
Definition light : Obj float := newObj (payload 0 0 0 None None (Some 1) (Some 1)).
Definition heavy : Obj float := newObj (payload 1 1 0 None None (Some 2) (Some 1)).
Definition heavy' : Obj float := newObj (payload 2 0 1 None None (Some 2) (Some 1)).
Definition cluster : list (Obj float) := [light; heavy; heavy'].

(** Three bodies of masses 1, 2 and 3 and radius 1 km, a metre apart, at
    rest. *)
Definition threeMasses : list (Event float) :=
  [ EvTick 1000;
    EvMessage (CmdAdd (payload 0 0 0 None None (Some 1) (Some 1000)));
    EvMessage (CmdAdd (payload 1 1 0 None None (Some 2) (Some 1000)));
    EvMessage (CmdAdd (payload 2 0 1 None None (Some 3) (Some 1000))) ].

(** One body thrown at 1e200 m/s along x: the square of its speed is
    beyond the range of doubles. *)
Definition overflowingBody : list (Event float) :=
  [ EvTick 1000;
    EvMessage (CmdAdd (payload 0 0 0 (Some 1e200) None None None)) ].

(** The time scale set to Infinity (a number above 0), between two ticks
    of the same millisecond. *)
Definition infiniteTimeScale : list (Event float) :=
  [ EvTick 1000;
    EvMessage (CmdSetTimeScale (Some PrimFloat.infinity));
    EvTick 1000 ].

(** An 'add' payload with mass 0 and radius -2. *)
Definition zeroMass : Data float := payload 7 0 0 None None (Some 0) (Some (-2)).

(** 'add' payloads over the reals with radius 1 and radius 0. *)
Definition realUnit : Data R :=
  mkData 0 0%R 0%R None None None None None (Some 1%R).
Definition realZeroRadius : Data R :=
  mkData 1 0%R 0%R None None None None None (Some 0%R).

End Scenario.

(* ================================================================== *)
(** * Further sample data *)
(* ================================================================== *)

Module Sample.

#[local] Set Warnings "-inexact-float".

(** A light and a heavy body that overlap (doubles). *)
Definition lightAndHeavy : list (Obj float) := [Scenario.light; Scenario.heavy].

(** Two bodies over the reals, masses 1 and 2, radii 1, 5 apart. *)
Definition realA : Obj R := mkObj 0 0%R 0%R 0%R 0%R 0%R 0%R 1%R 1%R false.
Definition realB : Obj R := mkObj 1 3%R 4%R 0%R 0%R 0%R 0%R 2%R 1%R false.

(** A body over the reals moving at (3, 4). *)
Definition realMoving : Obj R := mkObj 0 0%R 0%R 3%R 4%R 0%R 0%R 1%R 1%R false.

(** Two ticks at the clock readings 1 and 3 (reals). *)
Definition twoTicks : list (Event R) := [EvTick 1%R; EvTick 3%R].

(** Host objects on doubles: the Sun and a rocket with a trail of two
    points, active or removed. *)
Definition sun : View.GravSimObject float :=
  View.mkGravSimObject "Sun" 0 400%float 300%float 0%float 0%float 0%float 0%float
                       (Some 1.9891e27%float) (Some 6.96340e8%float) Host.ACTIVE [].
Definition rocket : View.GravSimObject float :=
  View.mkGravSimObject "Rocket" 1 410%float 300%float 0%float 1%float 0%float 0%float
                       (Some 57.5%float) (Some 63%float) Host.ACTIVE
                       [(408%float, 300%float); (409%float, 300%float)].
Definition removedRocket : View.GravSimObject float := View.setCollided rocket.

(** The arguments of two constructor calls (name, x, y, vx, vy, mass,
    radius), on doubles. *)
Definition twoCalls : list (string * float * float * float * float * float * float) :=
  [ ("Sun"%string, 400%float, 300%float, 0%float, 0%float, 1.9891e27%float, 6.96340e8%float);
    ("Rocket"%string, 410%float, 300%float, 0%float, 1%float, 57.5%float, 63%float) ].

(** A state over the reals with the two bodies, last ticked at 5. *)
Definition realPair : GravSimCalc R := mkCalc 5%R [realA; realB] 1%R.

(** The report entry of the first body of the cluster. *)
Definition lightEntry : Msg float :=
  mkMsg 0 0%float 0%float 0%float 0%float 0%float 0%float false.

End Sample.

(* ================================================================== *)
(** * The number instances satisfy the laws *)
(* ================================================================== *)

Lemma SFcompare_antisym (x y : spec_float) :
  SFcompare y x = option_map CompOpp (SFcompare x y).
Proof.
  destruct x as [sx|sx| |sx mx ex], y as [sy|sy| |sy my ey]; simpl;
    try reflexivity;
    try (destruct sx; reflexivity); try (destruct sy; reflexivity);
    try (destruct sx, sy; reflexivity).
  destruct sx, sy; try reflexivity; f_equal;
    rewrite (Z.compare_antisym ey ex);
    destruct (ey ?= ex)%Z; simpl; try reflexivity;
    rewrite (Pos.compare_cont_antisym mx my Eq); simpl;
    destruct (Pos.compare_cont Eq my mx); reflexivity.
Qed.

Lemma SFcompare_diag (x : spec_float) :
  SFcompare x x = None \/ SFcompare x x = Some Eq.
Proof.
  destruct x as [s|s| |s m e]; simpl; auto; right; f_equal.
  - destruct s; reflexivity.
  - rewrite Z.compare_refl.
    change (Pos.compare_cont Eq m m) with (Pos.compare m m).
    rewrite Pos.compare_refl. destruct s; reflexivity.
Qed.

Lemma float_ltb_asym (a b : float) :
  PrimFloat.ltb a b = true -> PrimFloat.ltb b a = false.
Proof.
  rewrite !FloatAxioms.ltb_spec. unfold SFltb.
  rewrite (SFcompare_antisym (Prim2SF a) (Prim2SF b)).
  destruct (SFcompare (Prim2SF a) (Prim2SF b)) as [[ | | ]|]; simpl; congruence.
Qed.

Lemma float_negative_truthy (a : float) :
  PrimFloat.ltb a (F64.of_Z 0) = true -> F64.falsy a = false.
Proof.
  unfold F64.falsy, PrimFloat.is_nan.
  rewrite FloatAxioms.ltb_spec, !FloatAxioms.eqb_spec. unfold SFltb, SFeqb.
  change (F64.of_Z 0) with PrimFloat.zero.
  destruct (SFcompare (Prim2SF a) (Prim2SF PrimFloat.zero)) as [[ | | ]|] eqn:E;
    try discriminate.
  intros _. simpl.
  destruct (SFcompare_diag (Prim2SF a)) as [Hn|Hn]; rewrite Hn; [|reflexivity].
  exfalso. destruct (Prim2SF a); simpl in *; discriminate.
Qed.

#[export] Instance float_JSNumberLaws : JSNumberLaws float.
Proof.
  split.
  - exact float_ltb_asym.
  - vm_compute. reflexivity.
  - vm_compute. reflexivity.
  - exact float_negative_truthy.
Qed.

Lemma Real_ltb_spec (a b : R) : Real.ltb a b = true <-> (a < b)%R.
Proof. unfold Real.ltb. destruct (Rlt_dec a b); split; intros; try done; lra. Qed.

Lemma Real_ltb_false (a b : R) : Real.ltb a b = false <-> (b <= a)%R.
Proof. unfold Real.ltb. destruct (Rlt_dec a b); split; intros; try done; lra. Qed.

Lemma Real_falsy_spec (a : R) : Real.falsy a = true <-> a = 0%R.
Proof. unfold Real.falsy. destruct (Req_dec_T a 0); split; intros; done. Qed.

Lemma Real_falsy_false (a : R) : Real.falsy a = false <-> a <> 0%R.
Proof. unfold Real.falsy. destruct (Req_dec_T a 0); split; intros; done. Qed.

#[export] Instance R_JSNumberLaws : JSNumberLaws R.
Proof.
  split; simpl.
  - intros a b. rewrite Real_ltb_spec, Real_ltb_false. lra.
  - apply Real_falsy_false. lra.
  - apply Real_falsy_spec. reflexivity.
  - intros a. rewrite Real_ltb_spec, Real_falsy_false. lra.
Qed.

(** The literal constants are the doubles the JavaScript parser reads. *)
Example float_constants :
  (G : float) = 0x1.2589effed8accp-34%float /\
  (YEARS_PER_SECOND : float) = 31557600%float /\
  (C : float) = 299792458%float /\
  (TIME_SCALE : float) = 1000%float.
Proof. repeat split; vm_compute; reflexivity. Qed.

(* ================================================================== *)
(** * Loops over array indices *)
(** The counter of the host's constructor on doubles: at the integers
    around 0, 2^53 and 2^54, [View.increment] is the addition of 1. *)
Example increment_on_doubles :
  let cs := [0; 1; 2 ^ 53 - 2; 2 ^ 53 - 1; 2 ^ 53; 2 ^ 53 + 2; 2 ^ 53 + 4;
             2 ^ 54 - 2; 2 ^ 54; 2 ^ 54 + 4;
             -1; - (2 ^ 53) + 1; - (2 ^ 53); - (2 ^ 53) - 2; - (2 ^ 53) - 4;
             - (2 ^ 54)]%Z in
  map (fun c => PrimFloat.add (F64.of_Z c) 1%float) cs
  = map (fun c => F64.of_Z (View.increment c)) cs.
Proof. vm_compute. reflexivity. Qed.

(* ================================================================== *)

Section ListFacts.

Context {A : Type}.
Implicit Types (l : list A) (i j : nat).

Lemma alter_as_insert (f : A -> A) l i x :
  l !! i = Some x -> alter f i l = <[i := f x]> l.
Proof.
  intros Hx. apply list_eq. intros j.
  destruct (decide (i = j)) as [<-|Hne].
  - rewrite list_lookup_alter_eq, Hx, list_lookup_insert_eq; [done|].
    by apply lookup_lt_is_Some.
  - by rewrite list_lookup_alter_ne, list_lookup_insert_ne.
Qed.

Lemma lookup_insert_same l i x y :
  l !! i = Some y -> <[i := x]> l !! i = Some x.
Proof. intros Hy. apply list_lookup_insert_eq. by apply lookup_lt_is_Some. Qed.

(** Scanning the indices of an array visits its elements in order. *)
Lemma fold_left_indices {S : Type} (f : S -> A -> S) l :
  forall (pre : list A) (s : S),
    fold_left (fun s j => match (pre ++ l) !! j with Some x => f s x | None => s end)
              (seq (length pre) (length l)) s
    = fold_left f l s.
Proof.
  induction l as [|x l IH]; intros pre s; simpl; [done|].
  rewrite list_lookup_middle by done.
  specialize (IH (pre ++ [x]) (f s x)).
  rewrite <- app_assoc, length_app in IH. simpl in IH.
  by replace (length pre + 1) with (Datatypes.S (length pre)) in IH by lia.
Qed.

Lemma fold_left_indices_0 {S : Type} (f : S -> A -> S) l (s : S) :
  fold_left (fun s j => match l !! j with Some x => f s x | None => s end)
            (seq 0 (length l)) s
  = fold_left f l s.
Proof. exact (fold_left_indices f l [] s). Qed.

End ListFacts.

(* ================================================================== *)
(** * updateGravity *)
(* ================================================================== *)

Section Gravity.

Context {num : Type} `{JSNumber num}.
Local Open Scope js_scope.
Implicit Types (b o obj other : Obj num) (objs : list (Obj num)) (a : num * num).

Lemma accumulate_fold b objs :
  accumulate b objs = fold_left (accStep b) objs (nofZ 0, nofZ 0).
Proof. reflexivity. Qed.

Lemma applyGravity_withAccel a b o :
  applyGravity (withAccel a b) o = withAccel (fst a + fst (contribution b o), snd a + snd (contribution b o)) b.
Proof. reflexivity. Qed.

(** The sum only reads the id, position, mass and radius of [b]. *)
Lemma accStep_ext b b' a o :
  oid b = oid b' -> ox b = ox b' -> oy b = oy b' ->
  omass b = omass b' -> oradius b = oradius b' ->
  accStep b a o = accStep b' a o.
Proof.
  intros Hid Hx Hy Hm Hr. unfold accStep, contribution.
  by rewrite Hid, Hx, Hy, Hm, Hr.
Qed.

Lemma accumulate_ext b b' objs :
  oid b = oid b' -> ox b = ox b' -> oy b = oy b' ->
  omass b = omass b' -> oradius b = oradius b' ->
  accumulate b objs = accumulate b' objs.
Proof.
  intros Hid Hx Hy Hm Hr. rewrite !accumulate_fold.
  generalize (nofZ 0, nofZ 0) as a.
  induction objs as [|o objs IH]; intros a; simpl; [done|].
  by rewrite IH, (accStep_ext b b').
Qed.

(** Entries carrying the id of [b] are skipped, whatever they hold. *)
Lemma accumulate_insert_same_id b objs i e e0 :
  objs !! i = Some e0 -> oid e0 = oid b -> oid e = oid b ->
  accumulate b (<[i := e]> objs) = accumulate b objs.
Proof.
  intros He0 Hid0 Hid. rewrite !accumulate_fold.
  generalize (nofZ 0, nofZ 0) as a. revert i He0.
  induction objs as [|o objs IH]; intros i He0 a; [done|].
  destruct i as [|i]; simpl in *.
  - injection He0 as ->. f_equal. unfold accStep. rewrite <- Hid0 at 2.
    rewrite <- Hid at 1. by rewrite !Z.eqb_refl.
  - by rewrite IH.
Qed.

Lemma gravity_loop i objs0 b b0 :
  objs0 !! i = Some b0 -> oid b0 = oid b ->
  forall (js : list nat) a,
    fold_left (fun objs j => gravityFrom i j objs) js (<[i := withAccel a b]> objs0)
    = <[i := withAccel
              (fold_left (fun a j => match objs0 !! j with
                                     | Some o => accStep b a o
                                     | None => a
                                     end) js a) b]> objs0.
Proof.
  intros Hb0 Hid js. induction js as [|j js IH]; intros a; simpl; [done|].
  unfold gravityFrom at 2.
  rewrite (lookup_insert_same _ _ _ _ Hb0).
  destruct (decide (i = j)) as [<-|Hne].
  - rewrite (lookup_insert_same _ _ _ _ Hb0), Hb0. simpl.
    rewrite Z.eqb_refl. simpl. unfold accStep at 2.
    rewrite <- Hid, Z.eqb_refl. apply IH.
  - rewrite list_lookup_insert_ne by done.
    destruct (objs0 !! j) as [o|]; [|apply IH].
    unfold accStep at 2. simpl.
    destruct (oid b =? oid o)%Z; simpl; [apply IH|].
    rewrite list_insert_insert_eq, applyGravity_withAccel. apply IH.
Qed.

Lemma updateGravity_insert i objs b :
  objs !! i = Some b ->
  updateGravity i objs = <[i := withAccel (accumulate b objs) b]> objs.
Proof.
  intros Hb. unfold updateGravity.
  rewrite (alter_as_insert _ _ _ _ Hb), length_insert.
  change (set_oay (nofZ 0) (set_oax (nofZ 0) b)) with (withAccel (nofZ 0, nofZ 0) b).
  rewrite (gravity_loop i objs b b Hb eq_refl).
  by rewrite fold_left_indices_0.
Qed.

End Gravity.

(* ================================================================== *)
(** * The integration step of update *)
(* ================================================================== *)

Section Integration.

Context {num : Type} `{JSNumber num}.
Local Open Scope js_scope.
Implicit Types (b o obj other : Obj num) (objs : list (Obj num)) (dt : num).

Lemma alter_insert_same (f : Obj num -> Obj num) objs i x y :
  objs !! i = Some y -> alter f i (<[i := x]> objs) = <[i := f x]> objs.
Proof.
  intros Hy.
  rewrite (alter_as_insert f _ i x) by exact (lookup_insert_same _ _ _ _ Hy).
  apply list_insert_insert_eq.
Qed.

Lemma moveObject_insert dt objs i b :
  objs !! i = Some b ->
  moveObject dt objs i = <[i := speedCap (verlet dt b objs)]> objs.
Proof.
  intros Hb. unfold moveObject.
  rewrite (updateGravity_insert i objs b Hb).
  rewrite (lookup_insert_same _ _ _ _ Hb).
  rewrite !(alter_insert_same _ _ _ _ _ Hb).
  match goal with
  | |- context [updateGravity i (<[i := ?b2]> objs)] =>
      rewrite (updateGravity_insert i (<[i := b2]> objs) b2
                 (lookup_insert_same _ _ _ _ Hb));
      rewrite (accumulate_insert_same_id b2 objs i b2 b Hb eq_refl eq_refl);
      rewrite (accumulate_ext b2 (set_oy (oy b2) (set_ox (ox b2) b)) objs
                 eq_refl eq_refl eq_refl eq_refl eq_refl)
  end.
  rewrite list_insert_insert_eq.
  rewrite !(alter_insert_same _ _ _ _ _ Hb).
  rewrite (lookup_insert_same _ _ _ _ Hb).
  unfold speedCap, speed, verlet, withAccel. simpl.
  match goal with |- context [if ?c then _ else _] => destruct c end.
  - by rewrite !(alter_insert_same _ _ _ _ _ Hb).
  - done.
Qed.

Lemma moveObject_none dt objs i :
  objs !! i = None -> moveObject dt objs i = objs.
Proof.
  intros Hb. unfold moveObject, updateGravity.
  assert (Hnone : forall (js : list nat) l, l !! i = None ->
            fold_left (fun l j => gravityFrom i j l) js l = l).
  { induction js as [|j js IH]; intros l Hl; simpl; [done|].
    unfold gravityFrom at 2. rewrite Hl. by apply IH. }
  assert (Halt : alter (fun obj : Obj num => set_oay (nofZ 0) (set_oax (nofZ 0) obj)) i objs = objs).
  { apply list_eq. intros k. destruct (decide (i = k)) as [<-|Hne].
    - by rewrite list_lookup_alter_eq, Hb.
    - by rewrite list_lookup_alter_ne. }
  rewrite Halt, Hnone by done. by rewrite Hb.
Qed.

(** The loop of update visits every index once, in order. *)
Lemma move_loop_length dt :
  forall (js : list nat) objs,
    length (fold_left (moveObject dt) js objs) = length objs.
Proof.
  induction js as [|j js IH]; intros objs; simpl; [done|].
  rewrite IH. destruct (objs !! j) as [b|] eqn:Hb.
  - by rewrite (moveObject_insert dt objs j b Hb), length_insert.
  - by rewrite moveObject_none.
Qed.


Lemma move_loop_fmap {B : Type} (g : Obj num -> B) dt :
  (forall b objs, g (speedCap (verlet dt b objs)) = g b) ->
  forall (js : list nat) objs,
    g <$> fold_left (moveObject dt) js objs = g <$> objs.
Proof.
  intros Hg. induction js as [|j js IH]; intros objs; simpl; [done|].
  rewrite IH. destruct (objs !! j) as [b|] eqn:Hb.
  - rewrite (moveObject_insert dt objs j b Hb), list_fmap_insert, Hg.
    apply list_insert_id. by rewrite list_lookup_fmap, Hb.
  - by rewrite moveObject_none.
Qed.

(** The loop of update up to and including the index n. *)
Lemma reached_S dt objs (n : nat) :
  reached dt objs (S n) = moveObject dt (reached dt objs n) n.
Proof. unfold reached. by rewrite seq_S, fold_left_app. Qed.

(** Entries at or beyond the index the loop has reached are those of the
    input. *)
Lemma reached_untouched dt objs (n k : nat) :
  (n <= k)%nat -> reached dt objs n !! k = objs !! k.
Proof.
  induction n as [|n IH]; intros Hk; [done|].
  rewrite reached_S.
  destruct (reached dt objs n !! n) as [b|] eqn:Hn.
  - rewrite (moveObject_insert dt _ n b Hn), list_lookup_insert_ne by lia.
    apply IH. lia.
  - rewrite moveObject_none by done. apply IH. lia.
Qed.

(** Entries before that index were written in their own iteration and
    not since. *)
Lemma reached_done dt objs (n i : nat) b :
  (i < n)%nat -> objs !! i = Some b ->
  reached dt objs n !! i = Some (speedCap (verlet dt b (reached dt objs i))).
Proof.
  induction n as [|n IH]; intros Hi Hb; [lia|].
  rewrite reached_S.
  destruct (decide (i = n)) as [->|Hne].
  - assert (Hn : reached dt objs n !! n = Some b) by by rewrite reached_untouched.
    rewrite (moveObject_insert dt _ n b Hn).
    exact (lookup_insert_same _ _ _ _ Hn).
  - destruct (reached dt objs n !! n) as [b'|] eqn:Hn.
    + rewrite (moveObject_insert dt _ n b' Hn), list_lookup_insert_ne by done.
      apply IH; [lia|done].
    + rewrite moveObject_none by done. apply IH; [lia|done].
Qed.

End Integration.

(* ================================================================== *)
(** * collisionCheck, the report and the purge *)
(* ================================================================== *)

Section Collision.

Context {num : Type} `{JSNumber num}.
Local Open Scope js_scope.
Implicit Types (b o obj other : Obj num) (objs : list (Obj num)).

Lemma fold_left_invariant {S I : Type} (Inv : S -> Prop) (f : S -> I -> S) :
  (forall s j, Inv s -> Inv (f s j)) ->
  forall (js : list I) s, Inv s -> Inv (fold_left f js s).
Proof.
  intros Hf. induction js as [|j js IH]; intros s Hs; simpl; [done|].
  by apply IH, Hf.
Qed.

Lemma collidePair_clearFlag i j objs :
  clearFlag <$> collidePair i j objs = clearFlag <$> objs.
Proof.
  unfold collidePair.
  destruct (objs !! i) as [obj|] eqn:Hi; [|done].
  destruct (objs !! j) as [other|] eqn:Hj; [|done].
  destruct (negb _); [|done]. destruct (isColliding _ _); [|done].
  destruct (_ <? _); rewrite list_fmap_insert; apply list_insert_id;
    rewrite list_lookup_fmap; [rewrite Hi|rewrite Hj]; done.
Qed.

Lemma collisionCheck_clearFlag objs :
  clearFlag <$> collisionCheck objs = clearFlag <$> objs.
Proof.
  unfold collisionCheck.
  apply (fold_left_invariant (fun s => clearFlag <$> s = clearFlag <$> objs)); [|done].
  intros s i Hs.
  apply (fold_left_invariant (fun s => clearFlag <$> s = clearFlag <$> objs)); [|done].
  intros s' j Hs'. by rewrite collidePair_clearFlag.
Qed.

Lemma fmap_via_clearFlag {B : Type} (g : Obj num -> B) objs objs' :
  (forall b, g (clearFlag b) = g b) ->
  clearFlag <$> objs' = clearFlag <$> objs ->
  g <$> objs' = g <$> objs.
Proof.
  intros Hg Heq.
  assert (Hc : forall l : list (Obj num), g <$> l = g <$> (clearFlag <$> l)).
  { intros l. rewrite <- list_fmap_compose. apply list_fmap_ext. intros _ b _. by rewrite <- Hg. }
  by rewrite (Hc objs'), (Hc objs), Heq.
Qed.

Lemma moved_oid dt b objs : oid (speedCap (verlet dt b objs)) = oid b.
Proof. unfold speedCap. by destruct (_ <? _). Qed.

(** Neither the integration loop nor collisionCheck changes an id. *)
Lemma tickObjects_ids now (this : GravSimCalc num) :
  oid <$> tickObjects now this = oid <$> objects this.
Proof.
  unfold tickObjects.
  rewrite (fmap_via_clearFlag oid _ _ (fun _ => eq_refl) (collisionCheck_clearFlag _)).
  apply move_loop_fmap. intros b objs. apply moved_oid.
Qed.

Lemma convertToMessage_ids objs : m_id <$> convertToMessage objs = oid <$> objs.
Proof.
  unfold convertToMessage. change (map ?f ?l) with (f <$> l).
  by rewrite <- list_fmap_compose.
Qed.

Lemma convertToMessage_collided objs :
  m_collided <$> convertToMessage objs = ocollided <$> objs.
Proof.
  unfold convertToMessage. change (map ?f ?l) with (f <$> l).
  rewrite <- list_fmap_compose. apply list_fmap_ext. intros _ b _. simpl.
  apply orb_false_r.
Qed.

Lemma convertToMessage_elem objs b :
  b ∈ objs ->
  exists m, m ∈ convertToMessage objs /\ m_id m = oid b /\ m_collided m = ocollided b.
Proof.
  intros Hb. unfold convertToMessage. change (map ?f ?l) with (f <$> l).
  eexists. split; [apply list_elem_of_fmap; exists b; split; [reflexivity|done]|].
  simpl. split; [done|apply orb_false_r].
Qed.

Lemma convertToMessage_elem_inv objs m :
  m ∈ convertToMessage objs ->
  exists b, b ∈ objs /\ m_id m = oid b /\ m_collided m = ocollided b.
Proof.
  unfold convertToMessage. change (map ?f ?l) with (f <$> l).
  intros (b & -> & Hb)%list_elem_of_fmap. exists b. simpl.
  split; [done|]. split; [done|apply orb_false_r].
Qed.

(** With unique ids, the body carrying an id is determined by it. *)
Lemma NoDup_ids_inj objs b b' :
  NoDup (oid <$> objs) -> b ∈ objs -> b' ∈ objs -> oid b = oid b' -> b = b'.
Proof.
  intros Hnd (i & Hi)%list_elem_of_lookup (j & Hj)%list_elem_of_lookup Heq.
  assert (i = j) as ->.
  { apply (NoDup_lookup _ i j (oid b) Hnd); rewrite list_lookup_fmap.
    - by rewrite Hi.
    - by rewrite Hj, Heq. }
  congruence.
Qed.

(** Ids present after a command were present before, or were added. *)
Lemma onmessage_ids cmd (this : GravSimCalc num) k :
  k ∈ (oid <$> objects (onmessage cmd this)) ->
  k ∈ (oid <$> objects this) \/ exists data, cmd = CmdAdd data /\ d_id data = k.
Proof.
  destruct cmd as [data|id|data|[ts|]|]; simpl; auto.
  - rewrite fmap_app, elem_of_app. intros [Hk|Hk]; [by left|right].
    exists data. split; [done|]. simpl in Hk. by apply list_elem_of_singleton in Hk.
  - intros (b & -> & Hb)%list_elem_of_fmap. left.
    apply list_elem_of_filter in Hb as [_ Hb].
    apply list_elem_of_fmap. by exists b.
  - destruct (list_find _ _) as [[i o]|] eqn:Hfind; simpl; auto.
    apply list_find_Some in Hfind as (Hi & _ & _).
    rewrite list_fmap_insert. simpl.
    rewrite (list_insert_id (oid <$> objects this) i (oid o)); auto.
    by rewrite list_lookup_fmap, Hi.
  - destruct (_ <? _); auto.
Qed.

Lemma update_state_ids now (this : GravSimCalc num) k :
  k ∈ (oid <$> objects (fst (update now this))) -> k ∈ (oid <$> objects this).
Proof.
  simpl. intros (b & -> & Hb)%list_elem_of_fmap.
  apply list_elem_of_filter in Hb as [_ Hb].
  rewrite <- (tickObjects_ids now this). apply list_elem_of_fmap. by exists b.
Qed.

Lemma update_report_ids now (this : GravSimCalc num) :
  m_id <$> r_objects (snd (update now this)) = oid <$> objects this.
Proof. simpl. by rewrite convertToMessage_ids, tickObjects_ids. Qed.

(** An id that is absent and is not added again stays out of every
    later report. *)
Lemma run_absent_id k :
  forall (evs : list (Event num)) (this : GravSimCalc num),
    k ∉ (oid <$> objects this) ->
    (forall data, EvMessage (CmdAdd data) ∈ evs -> d_id data <> k) ->
    forall r, r ∈ snd (run evs this) -> k ∉ (m_id <$> r_objects r).
Proof.
  induction evs as [|[now|cmd] evs IH]; intros this Hk Hadd r Hr; simpl in Hr.
  - by apply elem_of_nil in Hr.
  - destruct (run evs _) as [final rs] eqn:Hrun. simpl in Hr.
    apply elem_of_cons in Hr as [->|Hr].
    + change (mkReport ?d ?l) with (snd (update now this)).
      by rewrite update_report_ids.
    + apply (IH (fst (update now this))).
      * intros Hin. by apply Hk, (update_state_ids now).
      * intros data Hd. apply Hadd. by right.
      * simpl. by rewrite Hrun.
  - apply (IH (onmessage cmd this)); [| |done].
    + intros [Hin|(data & -> & Hd)]%onmessage_ids; [done|].
      by apply (Hadd data); [left|].
    + intros data Hd. apply Hadd. by right.
Qed.

(** isColliding reads positions and radii only. *)
Lemma isColliding_ext obj1 obj2 obj1' obj2' :
  ox obj1' = ox obj1 -> oy obj1' = oy obj1 -> oradius obj1' = oradius obj1 ->
  ox obj2' = ox obj2 -> oy obj2' = oy obj2 -> oradius obj2' = oradius obj2 ->
  isColliding obj1' obj2' = isColliding obj1 obj2.
Proof.
  intros Hx1 Hy1 Hr1 Hx2 Hy2 Hr2. unfold isColliding.
  by rewrite Hx1, Hy1, Hr1, Hx2, Hy2, Hr2.
Qed.

Lemma isColliding_clearFlag obj1 obj2 obj1' obj2' :
  clearFlag obj1' = clearFlag obj1 -> clearFlag obj2' = clearFlag obj2 ->
  isColliding obj1' obj2' = isColliding obj1 obj2.
Proof.
  intros H1 H2.
  apply isColliding_ext;
    [exact (f_equal ox H1)|exact (f_equal oy H1)|exact (f_equal oradius H1)
    |exact (f_equal ox H2)|exact (f_equal oy H2)|exact (f_equal oradius H2)].
Qed.

Lemma fold_left_invariant_in {S I : Type} (Inv : S -> Prop) (f : S -> I -> S)
    (js : list I) :
  (forall s j, j ∈ js -> Inv s -> Inv (f s j)) ->
  forall s, Inv s -> Inv (fold_left f js s).
Proof.
  induction js as [|j js IH]; intros Hf s Hs; simpl; [done|].
  apply IH.
  - intros s' j' Hj'. apply Hf. by right.
  - apply Hf; [by left|done].
Qed.

(** A property established by one iteration of a loop and kept by the
    others holds after the loop. *)
Lemma fold_left_establish {S I : Type} (Inv Q : S -> Prop) (f : S -> I -> S) (j0 : I) :
  (forall s j, Inv s -> Inv (f s j)) ->
  (forall s j, Inv s -> Q s -> Q (f s j)) ->
  (forall s, Inv s -> Q (f s j0)) ->
  forall (js : list I) s, j0 ∈ js -> Inv s -> Q (fold_left f js s).
Proof.
  intros HInv HQ Hj0. induction js as [|j js IH]; intros s Hin Hs; simpl.
  - by apply elem_of_nil in Hin.
  - apply elem_of_cons in Hin as [<-|Hin].
    + apply (fold_left_invariant (fun s => Inv s /\ Q s)).
      * intros s' j' [Hs' Hq']. split; [by apply HInv|by apply HQ].
      * split; [by apply HInv|by apply Hj0].
    + apply IH; [done|by apply HInv].
Qed.

(** collidePair never clears a flag and never moves an entry. *)
Lemma collidePair_lookup i j objs k b :
  objs !! k = Some b ->
  exists b', collidePair i j objs !! k = Some b'
             /\ clearFlag b' = clearFlag b
             /\ (ocollided b = true -> ocollided b' = true).
Proof.
  intros Hk. unfold collidePair.
  destruct (objs !! i) as [obj|] eqn:Hi; [|by exists b].
  destruct (objs !! j) as [other|] eqn:Hj; [|by exists b].
  destruct (negb _); [|by exists b]. destruct (isColliding _ _); [|by exists b].
  destruct (_ <? _).
  - destruct (decide (i = k)) as [->|Hne].
    + rewrite (lookup_insert_same _ _ _ _ Hi). eexists. split; [done|].
      assert (obj = b) as -> by congruence. done.
    + rewrite list_lookup_insert_ne by done. by exists b.
  - destruct (decide (j = k)) as [->|Hne].
    + rewrite (lookup_insert_same _ _ _ _ Hj). eexists. split; [done|].
      assert (other = b) as -> by congruence. done.
    + rewrite list_lookup_insert_ne by done. by exists b.
Qed.

Lemma collidePair_keeps_oneMarked i j i' j' objs :
  oneMarked i j objs -> oneMarked i j (collidePair i' j' objs).
Proof.
  intros (obj' & other' & Hi & Hj & Hm).
  destruct (collidePair_lookup i' j' objs i obj' Hi) as (o1 & Ho1 & _ & Hm1).
  destruct (collidePair_lookup i' j' objs j other' Hj) as (o2 & Ho2 & _ & Hm2).
  exists o1, o2. split; [done|]. split; [done|].
  destruct Hm; [left; auto|right; auto].
Qed.

Lemma collidePair_marks i j objs0 objs obj other :
  clearFlag <$> objs = clearFlag <$> objs0 ->
  i <> j ->
  objs0 !! i = Some obj -> objs0 !! j = Some other ->
  oid obj <> oid other -> isColliding obj other = true ->
  oneMarked i j (collidePair i j objs).
Proof.
  intros Heq Hij Hi Hj Hid Hcol.
  assert (Hlook : forall k b, objs0 !! k = Some b ->
            exists b', objs !! k = Some b' /\ clearFlag b' = clearFlag b).
  { intros k b Hk.
    assert (Hf : (clearFlag <$> objs) !! k = Some (clearFlag b))
      by by rewrite Heq, list_lookup_fmap, Hk.
    rewrite list_lookup_fmap in Hf.
    destruct (objs !! k) as [b'|]; [|done]. exists b'. split; [done|].
    simpl in Hf. congruence. }
  destruct (Hlook i obj Hi) as (obj' & Hi' & Hc1).
  destruct (Hlook j other Hj) as (other' & Hj' & Hc2).
  unfold collidePair, oneMarked. rewrite Hi', Hj'.
  rewrite (isColliding_clearFlag _ _ _ _ Hc1 Hc2), Hcol.
  assert (Hne : negb (oid obj' =? oid other')%Z = true).
  { apply negb_true_iff, Z.eqb_neq.
    rewrite (f_equal oid Hc1 : oid obj' = oid obj).
    by rewrite (f_equal oid Hc2 : oid other' = oid other). }
  rewrite Hne. destruct (_ <? _).
  - exists (set_ocollided true obj'), other'.
    split; [exact (lookup_insert_same _ _ _ _ Hi')|].
    split; [by rewrite list_lookup_insert_ne|by left].
  - exists obj', (set_ocollided true other').
    split; [by rewrite list_lookup_insert_ne|].
    split; [exact (lookup_insert_same _ _ _ _ Hj')|by right].
Qed.

Lemma collisionCheck_marks (i j : nat) objs obj other :
  (i < j)%nat ->
  objs !! i = Some obj -> objs !! j = Some other ->
  oid obj <> oid other -> isColliding obj other = true ->
  oneMarked i j (collisionCheck objs).
Proof.
  intros Hij Hi Hj Hid Hcol. unfold collisionCheck.
  set (Inv := fun s : list (Obj num) => clearFlag <$> s = clearFlag <$> objs).
  assert (Hinner : forall i' (js : list nat) s, Inv s ->
            Inv (fold_left (fun s j' => collidePair i' j' s) js s)).
  { intros i' js. apply fold_left_invariant.
    intros s j' Hs. unfold Inv. by rewrite collidePair_clearFlag. }
  assert (Hlen : forall s, Inv s -> length s = length objs).
  { intros s Hs. by rewrite <- (length_fmap clearFlag s), Hs, length_fmap. }
  assert (Hj_lt : (j < length objs)%nat) by by apply lookup_lt_is_Some.
  apply (fold_left_establish Inv (oneMarked i j) _ i).
  - intros s i' Hs. by apply Hinner.
  - intros s i' Hs Hq.
    apply (fold_left_invariant (oneMarked i j)); [|done].
    intros s' j' Hq'. by apply collidePair_keeps_oneMarked.
  - intros s Hs.
    apply (fold_left_establish Inv (oneMarked i j) _ j).
    + intros s' j' Hs'. unfold Inv. by rewrite collidePair_clearFlag.
    + intros s' j' _ Hq'. by apply collidePair_keeps_oneMarked.
    + intros s' Hs'. apply (collidePair_marks i j objs s' obj other); try done. lia.
    + apply elem_of_seq. rewrite (Hlen s Hs). lia.
    + done.
  - apply elem_of_seq. lia.
  - done.
Qed.

Lemma collisionCheck_nothing objs :
  (forall (i j : nat) obj other,
      (i < j)%nat -> objs !! i = Some obj -> objs !! j = Some other ->
      oid obj <> oid other -> isColliding obj other = false) ->
  collisionCheck objs = objs.
Proof.
  intros Hno. unfold collisionCheck.
  apply (fold_left_invariant_in (fun s => s = objs)); [|done].
  intros s i Hi ->.
  apply (fold_left_invariant_in (fun s => s = objs)); [|done].
  intros s j Hj ->. apply elem_of_seq in Hj.
  unfold collidePair.
  destruct (objs !! i) as [obj|] eqn:Hoi; [|done].
  destruct (objs !! j) as [other|] eqn:Hoj; [|done].
  destruct (negb _) eqn:Hne; [|done].
  apply negb_true_iff, Z.eqb_neq in Hne.
  by rewrite (Hno i j obj other) by (done || lia).
Qed.

End Collision.

(* ================================================================== *)
(** * The claims *)
(* ================================================================== *)

Section Claims.

Context {num : Type} `{JSNumber num}.
Local Open Scope js_scope.
Implicit Types (b o obj other : Obj num) (objs : list (Obj num)).

(** C1 (amended).  The collision detector makes one check per pair, on
    the positions the integration loop has left: a pair collides when the
    squared distance of these positions is below (radiusSum)².  The
    decision reads positions and radii only, not velocities,
    accelerations or dt, and there is no sub-step sampling: every pair
    with distinct ids that overlaps at the check gets one of its bodies
    marked, and when no pair overlaps at the check nothing is marked. *)
Theorem C1_collision_is_decided_on_current_positions :
  (forall obj1 obj2 obj1' obj2',
      ox obj1' = ox obj1 -> oy obj1' = oy obj1 -> oradius obj1' = oradius obj1 ->
      ox obj2' = ox obj2 -> oy obj2' = oy obj2 -> oradius obj2' = oradius obj2 ->
      isColliding obj1' obj2' = isColliding obj1 obj2)
  /\ (forall obj1 obj2,
        isColliding obj1 obj2
        = ((ox obj2 - ox obj1) * (ox obj2 - ox obj1)
           + (oy obj2 - oy obj1) * (oy obj2 - oy obj1)
           <? (oradius obj1 + oradius obj2) * (oradius obj1 + oradius obj2)))
  /\ (forall objs (i j : nat) obj other,
        (i < j)%nat -> objs !! i = Some obj -> objs !! j = Some other ->
        oid obj <> oid other -> isColliding obj other = true ->
        oneMarked i j (collisionCheck objs))
  /\ (forall objs,
        (forall (i j : nat) obj other,
            (i < j)%nat -> objs !! i = Some obj -> objs !! j = Some other ->
            oid obj <> oid other -> isColliding obj other = false) ->
        collisionCheck objs = objs)
  /\ (forall now this,
        tickObjects now this
        = collisionCheck (fold_left (moveObject (tickDt now this))
                                    (seq 0 (length (objects this))) (objects this))).
Proof.
  split; [|split; [|split; [|split]]].
  - intros obj1 obj2 obj1' obj2'. apply isColliding_ext.
  - reflexivity.
  - intros objs i j obj other. apply collisionCheck_marks.
  - apply collisionCheck_nothing.
  - reflexivity.
Qed.

(** C7. One call of updateGravity on the body [b] stored at index [i]
    replaces its acceleration by the sum, started from zero, of the
    contributions (G·m_b·m_o/distSq)/m_b · (dx, dy)/dist of all entries
    whose id differs from the id of [b], with
    distSq = max(dx² + dy², (r_b + r_o)²) and dist = √distSq.  Every other
    field of [b] and every other entry of the array is left as it was,
    and the previous acceleration of [b] does not enter the result. *)
Theorem C7_updateGravity_accumulates (i : nat) objs b :
  objs !! i = Some b ->
  updateGravity i objs
  = <[i := mkObj (oid b) (ox b) (oy b) (ovx b) (ovy b)
                 (fst (accumulate b objs)) (snd (accumulate b objs))
                 (omass b) (oradius b) (ocollided b)]> objs
  /\ (forall j, j <> i -> updateGravity i objs !! j = objs !! j)
  /\ (forall ax0 ay0, accumulate (set_oay ay0 (set_oax ax0 b)) objs = accumulate b objs)
  /\ (forall o, contribution b o =
        let dx := ox o - ox b in
        let dy := oy o - oy b in
        let dSq := nmax (dx * dx + dy * dy)
                        ((oradius b + oradius o) * (oradius b + oradius o)) in
        let accel := (G * omass b * omass o / dSq) / omass b in
        (accel * dx / nsqrt dSq, accel * dy / nsqrt dSq)).
Proof.
  intros Hb. rewrite (updateGravity_insert i objs b Hb).
  split; [reflexivity|]. split; [|split].
  - intros j Hj. by rewrite list_lookup_insert_ne.
  - intros ax0 ay0. by apply accumulate_ext.
  - reflexivity.
Qed.

(** C10. In an 'add' command a mass or radius that is absent or falsy
    (0, -0, NaN, null) yields the default 1, exactly as an omitted field;
    the stored mass and radius are therefore never falsy (never 0); a
    negative mass or radius is stored unchanged. *)
Theorem C10_add_defaults_mass_and_radius `{!JSNumberLaws num} (data : Data num) :
  let absent (f : option num) := match f with Some v => nfalsy v = true | None => True end in
  let without_mass := mkData (d_id data) (d_x data) (d_y data) (d_vx data) (d_vy data)
                             (d_ax data) (d_ay data) None (d_radius data) in
  let without_radius := mkData (d_id data) (d_x data) (d_y data) (d_vx data) (d_vy data)
                               (d_ax data) (d_ay data) (d_mass data) None in
  (absent (d_mass data) ->
     omass (newObj data) = nofZ 1 /\ newObj data = newObj without_mass)
  /\ (absent (d_radius data) ->
     oradius (newObj data) = nofZ 1 /\ newObj data = newObj without_radius)
  /\ nfalsy (omass (newObj data)) = false
  /\ nfalsy (oradius (newObj data)) = false
  /\ omass (newObj data) <> nofZ 0
  /\ oradius (newObj data) <> nofZ 0
  /\ (forall m, d_mass data = Some m -> (m <? nofZ 0) = true -> omass (newObj data) = m)
  /\ (forall r, d_radius data = Some r -> (r <? nofZ 0) = true -> oradius (newObj data) = r)
  /\ (forall this, objects (onmessage (CmdAdd data) this) = objects this ++ [newObj data]).
Proof.
  intros absent without_mass without_radius.
  assert (Hdef : forall f, absent f -> orElse f (nofZ 1) = nofZ 1).
  { intros [v|] Hf; simpl in *; [by rewrite Hf|done]. }
  assert (Htruthy : forall f, nfalsy (orElse f (nofZ 1)) = false).
  { intros [v|]; simpl; [|apply nfalsy_one].
    destruct (nfalsy v) eqn:Hv; [apply nfalsy_one|done]. }
  assert (Hnz : forall v : num, nfalsy v = false -> v <> nofZ 0).
  { intros v Hv ->. rewrite nfalsy_zero in Hv. done. }
  assert (Hneg : forall f v, f = Some v -> (v <? nofZ 0) = true -> orElse f (nofZ 1) = v).
  { intros f v -> Hv. simpl. by rewrite (nlt_zero_truthy v Hv). }
  split; [|split; [|split; [|split; [|split; [|split; [|split; [|split]]]]]]].
  - intros Hm. split; [by apply Hdef|].
    unfold newObj. simpl. by rewrite (Hdef _ Hm).
  - intros Hr. split; [by apply Hdef|].
    unfold newObj. simpl. by rewrite (Hdef _ Hr).
  - apply Htruthy.
  - apply Htruthy.
  - apply Hnz, Htruthy.
  - apply Hnz, Htruthy.
  - intros m. apply Hneg.
  - intros r. apply Hneg.
  - reflexivity.
Qed.

End Claims.

Section ReportClaim.

Context {num : Type} `{JSNumber num}.
Implicit Types (b : Obj num) (m : Msg num).

(** C8. The report of a tick lists the array as it is after
    collisionCheck and before the purge, one entry per body.  With
    unique ids, a body marked collided in the tick has exactly one entry
    in that report, with collided = true; it is absent from the state
    left by the tick and from the report of every later tick (as long as
    the host does not add a body with that id again); every body that
    survives the tick is in the report with collided = false. *)
Theorem C8_collided_reported_once_then_purged (now : num) (this : GravSimCalc num) :
  NoDup (oid <$> objects this) ->
  let objs := tickObjects now this in
  let this' := fst (update now this) in
  let report := snd (update now this) in
  r_objects report = convertToMessage objs
  /\ m_id <$> r_objects report = oid <$> objs
  /\ m_collided <$> r_objects report = ocollided <$> objs
  /\ NoDup (m_id <$> r_objects report)
  /\ objects this' = filter (fun b => ocollided b = false) objs
  /\ (forall b, b ∈ objs -> ocollided b = true ->
        (exists m, m ∈ r_objects report /\ m_id m = oid b /\ m_collided m = true)
        /\ (forall m, m ∈ r_objects report -> m_id m = oid b -> m_collided m = true)
        /\ (oid b ∉ (oid <$> objects this'))
        /\ (forall evs : list (Event num),
              (forall data, EvMessage (CmdAdd data) ∈ evs -> d_id data <> oid b) ->
              forall r, r ∈ snd (run evs this') -> oid b ∉ (m_id <$> r_objects r)))
  /\ (forall b, b ∈ objects this' ->
        b ∈ objs /\
        exists m, m ∈ r_objects report /\ m_id m = oid b /\ m_collided m = false).
Proof.
  intros Hnd objs this' report.
  assert (Hids : oid <$> objs = oid <$> objects this) by apply tickObjects_ids.
  assert (Hnd' : NoDup (oid <$> objs)) by by rewrite Hids.
  assert (Hgone : forall b, b ∈ objs -> ocollided b = true ->
            oid b ∉ (oid <$> objects this')).
  { intros b Hb Hc (b' & Heq & Hb')%list_elem_of_fmap.
    apply list_elem_of_filter in Hb' as [Hc' Hb'].
    rewrite (NoDup_ids_inj objs b b' Hnd' Hb Hb' Heq) in Hc. congruence. }
  split; [reflexivity|]. split; [apply convertToMessage_ids|].
  split; [apply convertToMessage_collided|].
  split; [subst report; simpl; by rewrite convertToMessage_ids|].
  split; [reflexivity|]. split.
  - intros b Hb Hc. split; [|split; [|split]].
    + destruct (convertToMessage_elem objs b Hb) as (m & Hm & Hid & Hmc).
      exists m. by rewrite Hmc.
    + intros m (b' & Hb' & Hid & Hmc)%convertToMessage_elem_inv Heq.
      rewrite Hmc. rewrite Hid in Heq.
      by rewrite (NoDup_ids_inj objs b' b Hnd' Hb' Hb Heq).
    + by apply Hgone.
    + intros evs Hadd. apply run_absent_id; [by apply Hgone|done].
  - intros b Hb. apply list_elem_of_filter in Hb as [Hc Hb]. split; [done|].
    destruct (convertToMessage_elem objs b Hb) as (m & Hm & Hid & Hmc).
    exists m. by rewrite Hmc.
Qed.

End ReportClaim.

(* ================================================================== *)
(** * Exact real arithmetic *)
(* ================================================================== *)

Section RealArithmetic.

Local Open Scope R_scope.
Implicit Types (b : Obj R) (this : GravSimCalc R).

Lemma nlt_real (x y : R) : nlt x y = Real.ltb x y.
Proof. reflexivity. Qed.

Lemma C_real : (C : R) = 299792458.
Proof. reflexivity. Qed.


Lemma speed_real b : speed b = R_sqrt.sqrt (ovx b * ovx b + ovy b * ovy b).
Proof. reflexivity. Qed.




Lemma speedCap_below b : speed b <= C -> speedCap b = b.
Proof.
  intros Hv. unfold speedCap. rewrite nlt_real.
  destruct (Real_ltb_false C (speed b)) as [_ Hge]. by rewrite (Hge Hv).
Qed.



(** setTimeScale only accepts positive values. *)
Lemma run_timeScale_positive (evs : list (Event R)) :
  forall this, 0 < timeScale this -> 0 < timeScale (fst (run evs this)).
Proof.
  induction evs as [|[now|cmd] evs IH]; intros this Hts; simpl; [done| |].
  - destruct (run evs _) as [final rs] eqn:Hrun. simpl.
    change final with (fst (final, rs)). rewrite <- Hrun. by apply IH.
  - apply IH. destruct cmd as [data|id|data|[ts|]|]; simpl; try done.
    + by destruct (list_find _ _) as [[i o]|].
    + destruct (Real.ltb 0 ts) eqn:Hlt; [|done]. simpl.
      by apply Real_ltb_spec.
Qed.

Lemma tickDt_real now this :
  tickDt now this = (now - lastTime this) * 31557600 / 1000 * timeScale this.
Proof.
  unfold tickDt, YEARS_PER_SECOND, TIME_SCALE, decimal.
  cbn [nofZ nmul ndiv nsub R_JSNumber].
  change (10 ^ Z.of_nat 2)%Z with 100%Z. field.
Qed.

Lemma newObj_radius_positive (data : Data R) :
  (forall r, d_radius data = Some r -> 0 <= r) -> 0 < oradius (newObj data).
Proof.
  intros Hr. simpl. destruct (d_radius data) as [r|]; simpl; [|lra].
  destruct (Real.falsy r) eqn:Hf; [lra|].
  apply Real_falsy_false in Hf. specialize (Hr r eq_refl). lra.
Qed.

End RealArithmetic.

Section RealClaims.

Local Open Scope R_scope.
Implicit Types (b : Obj R) (this : GravSimCalc R).


(** C4 (amended).  In exact real arithmetic the step length of a tick
    is not clamped: in every reachable state it is
    (now - lastTime)·31557600/1000·timeScale with a positive timeScale, so
    it is positive exactly when the clock has advanced since the previous
    tick, zero when it has not and negative when it went back; the first
    tick measures from lastTime = 0. *)
Theorem C4_dt_follows_the_clock (evs : list (Event R)) (now : R) :
  let this := fst (run evs init) in
  let dt := deltaTime (snd (update now this)) in
  dt = (now - lastTime this) * 31557600 / 1000 * timeScale this
  /\ 0 < timeScale this
  /\ (0 < dt <-> lastTime this < now)
  /\ (dt = 0 <-> now = lastTime this)
  /\ (dt < 0 <-> now < lastTime this)
  /\ lastTime (fst (update now this)) = now
  /\ deltaTime (snd (update now (init (num := R)))) = now * 31557600 / 1000.
Proof.
  intros this dt.
  assert (Hts : 0 < timeScale this).
  { apply run_timeScale_positive. simpl. lra. }
  assert (Hdt : dt = (now - lastTime this) * 31557600 / 1000 * timeScale this)
    by apply tickDt_real.
  assert (Hfactor : dt = (now - lastTime this) * (31557600 / 1000 * timeScale this))
    by (rewrite Hdt; field).
  assert (Hpos : 0 < 31557600 / 1000 * timeScale this) by nra.
  split; [done|]. split; [done|].
  split; [|split; [|split; [|split]]].
  - rewrite Hfactor. split; intros Hlt; nra.
  - rewrite Hfactor. split; intros Heq; nra.
  - rewrite Hfactor. split; intros Hlt; nra.
  - reflexivity.
  - change (deltaTime _) with (tickDt now (init (num := R))).
    rewrite tickDt_real. simpl. field.
Qed.

(** C9 (amended).  In exact real arithmetic, for two bodies whose radii
    come from 'add' commands with radius at least 0 (or absent), both
    radii are positive, the clamped squared distance is at least
    (radiusSum)² and positive, and so is its square root: the divisions
    by distSq and by dist in applyGravity have nonzero denominators.  The
    'update' command leaves the radius as it is, and the mass that
    applyGravity divides by is not 0 either. *)
Theorem C9_clamp_keeps_denominators_positive_in_real_arithmetic
    (data1 data2 : Data R) (b1 b2 : Obj R) :
  (forall r, d_radius data1 = Some r -> 0 <= r) ->
  (forall r, d_radius data2 = Some r -> 0 <= r) ->
  oradius b1 = oradius (newObj data1) ->
  oradius b2 = oradius (newObj data2) ->
  0 < oradius b1 /\ 0 < oradius b2
  /\ (oradius b1 + oradius b2) * (oradius b1 + oradius b2) <= distSq b1 b2
  /\ 0 < distSq b1 b2 /\ 0 < dist b1 b2
  /\ distSq b1 b2 <> 0 /\ dist b1 b2 <> 0
  /\ (forall data o, oradius (objToUpdate data o) = oradius o)
  /\ omass (newObj data1) <> 0.
Proof.
  intros Hr1 Hr2 Hb1 Hb2.
  assert (Hm : omass (newObj data1) <> 0).
  { simpl. destruct (d_mass data1) as [m|]; simpl; [|lra].
    destruct (Real.falsy m) eqn:Hf; [lra|]. by apply Real_falsy_false. }
  assert (H1 : 0 < oradius b1) by (rewrite Hb1; by apply newObj_radius_positive).
  assert (H2 : 0 < oradius b2) by (rewrite Hb2; by apply newObj_radius_positive).
  assert (Hclamp : (oradius b1 + oradius b2) * (oradius b1 + oradius b2) <= distSq b1 b2)
    by apply Rmax_r.
  assert (Hsq : 0 < distSq b1 b2) by nra.
  assert (Hd : 0 < dist b1 b2) by by apply sqrt_lt_R0.
  repeat (split; [first [done | lra]|]). done.
Qed.

End RealClaims.

(* ================================================================== *)
(** * The code on concrete inputs (doubles) *)
(* ================================================================== *)

Section Runs.

Local Open Scope float_scope.

(** C1, as stated, fails.  The passing pair: at the start of the tick
    the bodies are more than the radius sum apart on the x axis, during
    the tick the second one moves through the first (the sub-step samples
    of the specified detector overlap), at the end it is more than the
    radius sum away on the other side.  isColliding sees neither state as
    a collision and the report of the tick marks neither body. *)
Lemma C1_passing_pair_is_not_detected :
  let this := fst (run Scenario.passingPair init) in
  let this' := fst (update 1016 this) in
  let report := snd (update 1016 this) in
  match objects this, objects this' with
  | [a; b], [a'; b'] =>
      nlt (oradius a + oradius b) (ox b - ox a) = true
      /\ nlt (oradius a' + oradius b') (ox a' - ox b') = true
      /\ oy a = oy b /\ oy a' = oy b'
      /\ spec_twoTierCollision 20 (tickDt 1016 this) a b = true
      /\ isColliding a b = false
      /\ isColliding a' b' = false
  | _, _ => False
  end
  /\ map m_collided (r_objects report) = [false; false]
  /\ map oid (objects this') = [0%Z; 1%Z].
Proof. vm_compute. repeat split; reflexivity. Qed.

(** collisionCheck on the cluster of masses 1, 2 and 2: the light body
    loses against both heavy ones, and of the two heavy ones the second
    of the pair is marked. *)
Example cluster_collisionCheck :
  map ocollided (collisionCheck Scenario.cluster) = [true; false; true].
Proof. vm_compute. reflexivity. Qed.

(** C5, as stated, fails.  Three bodies of masses 1, 2 and 3 overlap
    one another after the integration loop of the tick.  The pair of the
    first two is found colliding and the first has the lower mass, yet
    both end the pass marked: the second one loses against the third.
    The report of the tick shows both with collided = true. *)
Lemma C5_both_bodies_of_a_pair_are_marked :
  let this := fst (run Scenario.threeMasses init) in
  let moved := reached (tickDt 1016 this) (objects this) (length (objects this)) in
  match moved with
  | [a; b; c] =>
      (oid a =? oid b)%Z = false
      /\ isColliding a b = true
      /\ nlt (omass a) (omass b) = true
  | _ => False
  end
  /\ map ocollided (collisionCheck moved) = [true; true; false]
  /\ map (fun m => (m_id m, m_collided m)) (r_objects (snd (update 1016 this)))
     = [(0%Z, true); (1%Z, true); (2%Z, false)].
Proof. vm_compute. repeat split; reflexivity. Qed.

(** C3.  The Sun and the black hole: the tick reports the Sun (id 0, the
    first body) with collided = true and purges it from the array of the
    worker, while setCollided of the host leaves the Sun ACTIVE. *)
Theorem C3_sun_is_marked_and_purged :
  let this := fst (run Scenario.sunAndBlackHole init) in
  map oid (objects this) = [0%Z; 1%Z]
  /\ map (fun m => (m_id m, m_collided m)) (r_objects (snd (update 1016 this)))
     = [(0%Z, true); (1%Z, false)]
  /\ map oid (objects (fst (update 1016 this))) = [1%Z]
  /\ Host.state (Host.setCollided Scenario.hostSun) = Host.ACTIVE.
Proof. vm_compute. repeat split; reflexivity. Qed.


(** On doubles the cap can also stop a body: when the square of the
    speed overflows, v is Infinity and the rescaled velocity is (0, 0). *)
Example overflowing_speed_is_zeroed :
  map (fun b => (ovx b, ovy b))
      (objects (fst (update 1016 (fst (run Scenario.overflowingBody init)))))
  = [(0, 0)].
Proof. vm_compute. reflexivity. Qed.

(** C4, as stated, fails: of three ticks, the one in the same
    millisecond as its predecessor has dt = 0 and the one after the clock
    went back has dt < 0. *)
Lemma C4_dt_zero_and_negative :
  map (fun r => (nlt 0 (deltaTime r), nfalsy (deltaTime r), nlt (deltaTime r) 0))
      (snd (run Scenario.sameMillisecond init))
  = [(true, false, false); (false, true, false); (false, false, true)].
Proof. vm_compute. reflexivity. Qed.

(** On doubles 'setTimeScale' accepts Infinity, and then a tick in the
    same millisecond as its predecessor has dt = 0·Infinity = NaN. *)
Example infinite_timeScale_gives_NaN_dt :
  nlt 0 (timeScale (fst (run Scenario.infiniteTimeScale init))) = true
  /\ map (fun r => PrimFloat.is_nan (deltaTime r))
         (snd (run Scenario.infiniteTimeScale init))
     = [false; true].
Proof. vm_compute. split; reflexivity. Qed.

(** C9, as stated, fails on doubles: for two bodies added with radius
    1e-200 at the same place the squared radius sum underflows, distSq
    and dist are 0 and the acceleration becomes NaN. *)
Lemma C9_radius_sum_underflows :
  nlt 0 (oradius Scenario.tinyA) = true
  /\ nlt 0 (oradius Scenario.tinyB) = true
  /\ distSq Scenario.tinyA Scenario.tinyB = 0
  /\ dist Scenario.tinyA Scenario.tinyB = 0
  /\ PrimFloat.is_nan (oax (applyGravity Scenario.tinyA Scenario.tinyB)) = true.
Proof. vm_compute. repeat split; reflexivity. Qed.

End Runs.

(* ================================================================== *)
(** * The theorems at concrete inputs *)
(* ================================================================== *)

Section Witnesses.

Import Scenario.

Lemma C7_witness :
  updateGravity 0 cluster !! 1%nat = cluster !! 1%nat.
Proof.
  destruct (C7_updateGravity_accumulates 0 cluster light eq_refl) as (_ & Hother & _).
  apply Hother. lia.
Defined.

Lemma C10_witness :
  omass (newObj zeroMass) = 1%float /\ oradius (newObj zeroMass) = (-2)%float.
Proof.
  destruct (C10_add_defaults_mass_and_radius zeroMass)
    as (Hmass & _ & _ & _ & _ & _ & _ & Hneg & _).
  split.
  - apply Hmass. vm_compute. reflexivity.
  - apply (Hneg (-2)%float); vm_compute; reflexivity.
Defined.

Lemma C8_witness :
  NoDup (m_id <$> r_objects (snd (update 16%float (mkCalc 0%float cluster 1%float)))).
Proof.
  assert (Hnd : NoDup (oid <$> objects (mkCalc 0%float cluster 1%float))).
  { apply (bool_decide_unpack _). vm_compute. exact I. }
  destruct (C8_collided_reported_once_then_purged 16%float
              (mkCalc 0%float cluster 1%float) Hnd) as (_ & _ & _ & Hrep & _).
  exact Hrep.
Defined.

Lemma C9_witness :
  (distSq (newObj realUnit) (newObj realZeroRadius) <> 0)%R
  /\ (dist (newObj realUnit) (newObj realZeroRadius) <> 0)%R.
Proof.
  assert (H1 : forall r : R, d_radius realUnit = Some r -> (0 <= r)%R).
  { intros r [= <-]. lra. }
  assert (H2 : forall r : R, d_radius realZeroRadius = Some r -> (0 <= r)%R).
  { intros r [= <-]. lra. }
  destruct (C9_clamp_keeps_denominators_positive_in_real_arithmetic
              realUnit realZeroRadius (newObj realUnit) (newObj realZeroRadius)
              H1 H2 eq_refl eq_refl) as (_ & _ & _ & _ & _ & Hsq & Hd & _).
  split; assumption.
Defined.

End Witnesses.

(* ================================================================== *)
(** * Further properties of the worker *)
(* ================================================================== *)

Section WorkerCommands.

Context {num : Type} `{JSNumber num}.
Local Open Scope js_scope.
Implicit Types (b o : Obj num) (this : GravSimCalc num) (data : Data num).

Lemma filter_all {A : Type} (P : A -> Prop) `{!forall x, Decision (P x)} (l : list A) :
  Forall P l -> filter P l = l.
Proof.
  induction 1 as [|x l Hx Hl IH]; [done|].
  rewrite filter_cons. destruct (decide (P x)); [by rewrite IH|done].
Qed.

Lemma calc_eta this : mkCalc (lastTime this) (objects this) (timeScale this) = this.
Proof. by destruct this. Qed.

(** The ids left by a tick are a sublist of the ids before it. *)
Lemma update_ids_sublist now this :
  (oid <$> objects (fst (update now this))) `sublist_of` (oid <$> objects this).
Proof.
  simpl. rewrite <- (tickObjects_ids now this).
  apply fmap_sublist, sublist_filter.
Qed.

Lemma onmessage_update_ids data this :
  oid <$> objects (onmessage (CmdUpdate data) this) = oid <$> objects this.
Proof.
  simpl. destruct (list_find _ _) as [[i o]|] eqn:Hfind; [|done].
  apply list_find_Some in Hfind as (Hi & _ & _). simpl.
  rewrite list_fmap_insert. apply list_insert_id.
  by rewrite list_lookup_fmap, Hi.
Qed.

(** X1. The 'remove' command deletes every body carrying the id, keeps
    all others in their order and leaves the clock fields alone; for an
    id that no body carries the state is unchanged. *)
Theorem X1_remove_deletes_by_id (k : Z) this :
  let this' := onmessage (CmdRemove k) this in
  (k ∉ (oid <$> objects this'))
  /\ (forall b, b ∈ objects this' <-> b ∈ objects this /\ oid b <> k)
  /\ objects this' `sublist_of` objects this
  /\ (k ∉ (oid <$> objects this) -> this' = this)
  /\ lastTime this' = lastTime this
  /\ timeScale this' = timeScale this.
Proof.
  simpl. split; [|split; [|split; [|split; [|done]]]].
  - intros (b & -> & Hb)%list_elem_of_fmap.
    by apply list_elem_of_filter in Hb as [Hne _].
  - intros b. rewrite list_elem_of_filter. tauto.
  - apply sublist_filter.
  - intros Hk. rewrite filter_all; [apply calc_eta|].
    apply Forall_forall. intros b Hb Heq. apply Hk.
    apply list_elem_of_fmap. by exists b.
Qed.


(** X3. The time scale stays positive: starting from a state whose time
    scale is above 0, no sequence of ticks and commands makes it zero,
    negative or (on doubles) NaN, because 'setTimeScale' only stores
    values above 0 and nothing else writes the field. *)
Theorem X3_timeScale_stays_positive (evs : list (Event num)) this :
  (nofZ 0 <? timeScale this) = true ->
  (nofZ 0 <? timeScale (fst (run evs this))) = true.
Proof.
  revert this. induction evs as [|[now|cmd] evs IH]; intros this Hts; simpl; [done| |].
  - destruct (run evs _) as [final rs] eqn:Hrun. simpl.
    change final with (fst (final, rs)). rewrite <- Hrun. by apply IH.
  - apply IH. destruct cmd as [data|id|data|[ts|]|]; simpl; try done.
    + by destruct (list_find _ _) as [[i o]|].
    + by destruct (nofZ 0 <? ts) eqn:Hlt.
Qed.

(** X4. One report is posted per tick, in order, and the state remembers
    the clock reading of the most recent tick (commands never touch
    lastTime). *)
Theorem X4_one_report_per_tick (evs : list (Event num)) this :
  length (snd (run evs this)) = length (tickTimes evs)
  /\ lastTime (fst (run evs this)) = default (lastTime this) (last (tickTimes evs))
  /\ (forall cmd, lastTime (onmessage cmd this) = lastTime this).
Proof.
  assert (Hcmd : forall cmd this, lastTime (onmessage cmd this) = lastTime this).
  { intros cmd this0. destruct cmd as [data|id|data|[ts|]|]; simpl; try done.
    - by destruct (list_find _ _) as [[i o]|].
    - by destruct (_ <? _). }
  split; [|split; [|intros cmd; apply Hcmd]].
  - revert this. induction evs as [|[now|cmd] evs IH]; intros this; simpl; [done| |].
    + specialize (IH (fst (update now this))). simpl in IH.
      destruct (run evs _) as [final rs]. simpl in *. by rewrite IH.
    + apply IH.
  - revert this. induction evs as [|[now|cmd] evs IH]; intros this; simpl; [done| |].
    + specialize (IH (fst (update now this))). simpl in IH.
      destruct (run evs _) as [final rs]. simpl in *. rewrite IH.
      by destruct (tickTimes evs) as [|t ts] using rev_ind;
        [|rewrite app_comm_cons, !last_snoc].
    + by rewrite IH, Hcmd.
Qed.

(** X5. Ids stay unique: if the ids of the bodies at hand and the ids of
    the 'add' commands still to come are pairwise distinct, the state
    reached after the trace has no two bodies with the same id. *)
Theorem X5_ids_stay_unique (evs : list (Event num)) this :
  NoDup ((oid <$> objects this) ++ addIds evs) ->
  NoDup (oid <$> objects (fst (run evs this))).
Proof.
  revert this. induction evs as [|[now|cmd] evs IH]; intros this Hnd; simpl.
  - unfold addIds in Hnd. simpl in Hnd. by rewrite app_nil_r in Hnd.
  - destruct (run evs _) as [final rs] eqn:Hrun. simpl.
    change final with (fst (final, rs)). rewrite <- Hrun. apply IH.
    change (addIds (EvTick now :: evs)) with (addIds evs) in Hnd.
    eapply sublist_NoDup; [exact Hnd|].
    apply sublist_app; [apply update_ids_sublist|done].
  - apply IH. destruct cmd as [data|id|data|ts|].
    + change (addIds (EvMessage (CmdAdd data) :: evs)) with (d_id data :: addIds evs) in Hnd.
      simpl. rewrite fmap_app. simpl. by rewrite <- app_assoc.
    + change (addIds (EvMessage (CmdRemove id) :: evs)) with (addIds evs) in Hnd.
      eapply sublist_NoDup; [exact Hnd|].
      apply sublist_app; [|done]. simpl. apply fmap_sublist, sublist_filter.
    + change (addIds (EvMessage (CmdUpdate data) :: evs)) with (addIds evs) in Hnd.
      by rewrite onmessage_update_ids.
    + change (addIds (EvMessage (CmdSetTimeScale ts) :: evs)) with (addIds evs) in Hnd.
      destruct ts as [ts|]; simpl; [|done]. by destruct (_ <? _).
    + done.
Qed.

(** X6. No body enters a tick already marked: in every state reachable
    from the initial one all bodies have collided = false, so a body
    reported with collided = true was marked in that very tick. *)
Theorem X6_no_marked_body_between_ticks (evs : list (Event num)) :
  Forall (fun b => ocollided b = false) (objects (fst (run evs init))).
Proof.
  assert (Hgen : forall this, Forall (fun b => ocollided b = false) (objects this) ->
            Forall (fun b => ocollided b = false) (objects (fst (run evs this)))).
  { induction evs as [|[now|cmd] evs IH]; intros this Hall; simpl; [done| |].
    - destruct (run evs _) as [final rs] eqn:Hrun. simpl.
      change final with (fst (final, rs)). rewrite <- Hrun. apply IH.
      simpl. apply Forall_forall. by intros b [Hb _]%list_elem_of_filter.
    - apply IH. destruct cmd as [data|id|data|[ts|]|]; simpl; try done.
      + apply Forall_app. split; [done|]. by apply Forall_singleton.
      + apply Forall_forall. intros b [_ Hb]%list_elem_of_filter.
        rewrite Forall_forall in Hall. by apply Hall.
      + destruct (list_find _ _) as [[i o]|] eqn:Hfind; [|done].
        apply list_find_Some in Hfind as (Hi & _ & _). simpl.
        apply Forall_insert; [done|]. simpl.
        rewrite Forall_forall in Hall. apply Hall. by eapply list_elem_of_lookup_2.
      + by destruct (_ <? _). }
  apply Hgen. simpl. constructor.
Qed.

(** X7. A tick creates no body and changes no id, mass or radius: the
    (id, mass, radius) triples in the report are those of the bodies
    before the tick, in the same order, and the triples of the survivors
    are a sublist of them. *)
Theorem X7_tick_keeps_identities (now : num) this :
  identity <$> tickObjects now this = identity <$> objects this
  /\ (identity <$> objects (fst (update now this))) `sublist_of` (identity <$> objects this)
  /\ (length (objects (fst (update now this))) <= length (objects this))%nat
  /\ length (r_objects (snd (update now this))) = length (objects this).
Proof.
  assert (Hid : identity <$> tickObjects now this = identity <$> objects this).
  { unfold tickObjects.
    rewrite (fmap_via_clearFlag identity _ _ (fun _ => eq_refl) (collisionCheck_clearFlag _)).
    apply move_loop_fmap. intros b objs. unfold speedCap. by destruct (_ <? _). }
  split; [done|]. split; [|split].
  - simpl. rewrite <- Hid. apply fmap_sublist, sublist_filter.
  - simpl. etransitivity; [apply length_filter|].
    by rewrite <- (length_fmap identity), Hid, length_fmap.
  - simpl. unfold convertToMessage. rewrite length_map.
    by rewrite <- (length_fmap identity), Hid, length_fmap.
Qed.

End WorkerCommands.

Section Marking.

Context {num : Type} `{JSNumber num}.
Local Open Scope js_scope.
Implicit Types (b o obj other : Obj num) (objs : list (Obj num)).

(** Entries of an array that agrees with [objs0] up to the flags. *)
Lemma lookup_via_clearFlag objs0 objs (k : nat) b' :
  clearFlag <$> objs = clearFlag <$> objs0 ->
  objs !! k = Some b' ->
  exists b, objs0 !! k = Some b /\ clearFlag b' = clearFlag b.
Proof.
  intros Heq Hk.
  assert (Hf : (clearFlag <$> objs0) !! k = Some (clearFlag b'))
    by by rewrite <- Heq, list_lookup_fmap, Hk.
  rewrite list_lookup_fmap in Hf.
  destruct (objs0 !! k) as [b|]; [|done]. exists b. split; [done|].
  simpl in Hf. congruence.
Qed.

(** What the loops of collisionCheck maintain: positions, masses and ids
    are those of the input, and every flag that is set was set in the
    input or has a cause. *)
Definition markingInv (objs0 objs : list (Obj num)) : Prop :=
  clearFlag <$> objs = clearFlag <$> objs0
  /\ forall (k : nat) b', objs !! k = Some b' -> ocollided b' = true ->
       (exists b, objs0 !! k = Some b /\ ocollided b = true) \/ markCause objs0 k.

Lemma collidePair_markingInv objs0 objs (i j : nat) :
  (i < j)%nat -> markingInv objs0 objs -> markingInv objs0 (collidePair i j objs).
Proof.
  intros Hij [Heq Hflags]. split; [by rewrite collidePair_clearFlag|].
  intros k b' Hk Hmark. unfold collidePair in Hk.
  destruct (objs !! i) as [obj|] eqn:Hi; [|by eapply Hflags].
  destruct (objs !! j) as [other|] eqn:Hj; [|by eapply Hflags].
  destruct (negb _) eqn:Hne; [|by eapply Hflags].
  destruct (isColliding obj other) eqn:Hcol; [|by eapply Hflags].
  apply negb_true_iff, Z.eqb_neq in Hne.
  destruct (lookup_via_clearFlag objs0 objs i obj Heq Hi) as (obj0 & Hi0 & Hc1).
  destruct (lookup_via_clearFlag objs0 objs j other Heq Hj) as (other0 & Hj0 & Hc2).
  assert (Hcol0 : isColliding obj0 other0 = true)
    by by rewrite <- (isColliding_clearFlag _ _ _ _ Hc1 Hc2).
  assert (Hne0 : oid obj0 <> oid other0).
  { by rewrite <- (f_equal oid Hc1 : oid obj = oid obj0),
               <- (f_equal oid Hc2 : oid other = oid other0). }
  assert (Hm1 : omass obj = omass obj0) by exact (f_equal omass Hc1).
  assert (Hm2 : omass other = omass other0) by exact (f_equal omass Hc2).
  destruct (omass obj <? omass other) eqn:Hlt.
  - destruct (decide (i = k)) as [<-|Hik].
    + right. exists j, obj0, other0. split; [done|]. split; [done|]. split; [done|].
      left. by rewrite <- Hm1, <- Hm2.
    + rewrite list_lookup_insert_ne in Hk by done. by eapply Hflags.
  - destruct (decide (j = k)) as [<-|Hjk].
    + right. exists i, other0, obj0. split; [done|]. split; [done|].
      split; [by apply not_eq_sym|]. right. by rewrite <- Hm1, <- Hm2.
    + rewrite list_lookup_insert_ne in Hk by done. by eapply Hflags.
Qed.

Lemma collisionCheck_markingInv objs : markingInv objs (collisionCheck objs).
Proof.
  unfold collisionCheck.
  apply (fold_left_invariant_in (markingInv objs)).
  - intros s i _ Hs.
    apply (fold_left_invariant_in (markingInv objs)); [|done].
    intros s' j Hj Hs'. apply elem_of_seq in Hj.
    apply collidePair_markingInv; [lia|done].
  - split; [done|]. intros k b' Hk Hmark. left. by exists b'.
Qed.

(** X8. collisionCheck marks no body without a cause: a body that leaves
    it marked was marked before or overlaps a body with another id that
    is strictly heavier and later in the array, or not strictly lighter
    and earlier in the array.  In particular the first body of the array
    is only ever marked by a strictly heavier overlapping body. *)
Theorem X8_marking_has_a_cause objs :
  (forall (k : nat) b', collisionCheck objs !! k = Some b' -> ocollided b' = true ->
     (exists b, objs !! k = Some b /\ ocollided b = true) \/ markCause objs k)
  /\ (forall b0 b0', objs !! 0%nat = Some b0 -> ocollided b0 = false ->
        collisionCheck objs !! 0%nat = Some b0' -> ocollided b0' = true ->
        exists (j : nat) other,
          objs !! j = Some other /\ oid b0 <> oid other
          /\ isColliding b0 other = true /\ (omass b0 <? omass other) = true).
Proof.
  destruct (collisionCheck_markingInv objs) as [_ Hflags].
  split; [exact Hflags|].
  intros b0 b0' H0 Hclean H0' Hmark.
  destruct (Hflags 0%nat b0' H0' Hmark) as [(b & Hb & Hbm)|Hcause].
  - congruence.
  - destruct Hcause as (j & bk & bj & Hk & Hj & Hid & [(_ & Hcol & Hlt)|(Hlt & _)]).
    + assert (bk = b0) as -> by congruence. by exists j, bj.
    + lia.
Qed.

(** X9. The strictly heaviest body survives collisionCheck: an unmarked
    body whose mass is above the mass of every body with another id
    leaves collisionCheck unmarked, wherever it is in the array. *)
Theorem X9_strictly_heaviest_survives `{!JSNumberLaws num} objs (k : nat) b :
  objs !! k = Some b ->
  ocollided b = false ->
  (forall (j : nat) o, objs !! j = Some o -> oid o <> oid b ->
                       (omass o <? omass b) = true) ->
  collisionCheck objs !! k = Some b.
Proof.
  intros Hk Hclean Hheavy.
  destruct (collisionCheck_markingInv objs) as [Heq Hflags].
  assert (Hsome : exists b', collisionCheck objs !! k = Some b').
  { apply lookup_lt_is_Some.
    rewrite <- (length_fmap clearFlag), Heq, length_fmap.
    by apply lookup_lt_is_Some. }
  destruct Hsome as [b' Hb'].
  destruct (lookup_via_clearFlag objs _ k b' Heq Hb') as (b0 & Hb0 & Hc).
  assert (b0 = b) as -> by congruence.
  destruct (ocollided b') eqn:Hmark.
  - exfalso. destruct (Hflags k b' Hb' Hmark) as [(b1 & Hb1 & Hbm)|Hcause].
    + congruence.
    + destruct Hcause as (j & bk & bj & Hk' & Hj & Hid & Hc').
      assert (bk = b) as -> by congruence.
      pose proof (Hheavy j bj Hj (not_eq_sym Hid)) as Hlt.
      destruct Hc' as [(_ & _ & Hlt')|(_ & _ & Hlt')].
      * apply nlt_asym in Hlt. congruence.
      * congruence.
  - rewrite Hb'. f_equal. destruct b', b.
    unfold clearFlag, set_ocollided in Hc. simpl in *.
    injection Hc as -> -> -> -> -> -> -> -> ->. by rewrite Hmark, Hclean.
Qed.

End Marking.

(* ================================================================== *)
(** * The tick as a whole: integration and pair resolution *)
(* ================================================================== *)

Section TickClaims.

Context {num : Type} `{JSNumber num}.
Local Open Scope js_scope.
Implicit Types (b o obj other : Obj num) (objs : list (Obj num)).

(** An entry is determined by its flag and by the rest of its fields. *)
Lemma flag_eta b1 b2 :
  clearFlag b1 = clearFlag b2 -> b2 = set_ocollided (ocollided b2) b1.
Proof.
  destruct b1, b2. unfold clearFlag, set_ocollided. simpl.
  by intros [= -> -> -> -> -> -> -> -> ->].
Qed.

(** The entry of [objs] at an index where [objs0] has one. *)
Lemma lookup_from_clearFlag objs0 objs (k : nat) b :
  clearFlag <$> objs = clearFlag <$> objs0 ->
  objs0 !! k = Some b ->
  exists b', objs !! k = Some b' /\ clearFlag b' = clearFlag b.
Proof.
  intros Heq Hk.
  destruct (lookup_via_clearFlag objs objs0 k b (eq_sym Heq) Hk) as (b' & Hk' & Hc).
  by exists b'.
Qed.

Lemma collidePair_keeps_markedAt i j objs (k : nat) :
  markedAt objs k -> markedAt (collidePair i j objs) k.
Proof.
  intros (b & Hk & Hm).
  destruct (collidePair_lookup i j objs k b Hk) as (b' & Hk' & _ & Hm').
  exists b'. auto.
Qed.

(** The resolution of a colliding pair marks the body it chooses,
    whatever flags the array carries already. *)
Lemma collidePair_marks_loser i j objs0 objs obj other :
  clearFlag <$> objs = clearFlag <$> objs0 ->
  i <> j ->
  objs0 !! i = Some obj -> objs0 !! j = Some other ->
  oid obj <> oid other -> isColliding obj other = true ->
  markedAt (collidePair i j objs) (loserOf i j obj other).
Proof.
  intros Heq Hij Hi Hj Hid Hcol.
  destruct (lookup_from_clearFlag objs0 objs i obj Heq Hi) as (obj' & Hi' & Hc1).
  destruct (lookup_from_clearFlag objs0 objs j other Heq Hj) as (other' & Hj' & Hc2).
  unfold collidePair, loserOf. rewrite Hi', Hj'.
  rewrite (isColliding_clearFlag _ _ _ _ Hc1 Hc2), Hcol.
  assert (Hne : negb (oid obj' =? oid other')%Z = true).
  { apply negb_true_iff, Z.eqb_neq.
    rewrite (f_equal oid Hc1 : oid obj' = oid obj).
    by rewrite (f_equal oid Hc2 : oid other' = oid other). }
  rewrite Hne.
  rewrite (f_equal omass Hc1 : omass obj' = omass obj).
  rewrite (f_equal omass Hc2 : omass other' = omass other).
  destruct (omass obj <? omass other).
  - exists (set_ocollided true obj').
    split; [exact (lookup_insert_same _ _ _ _ Hi')|done].
  - exists (set_ocollided true other').
    split; [exact (lookup_insert_same _ _ _ _ Hj')|done].
Qed.

(** The body chosen by a colliding pair is marked when collisionCheck
    returns. *)
Lemma collisionCheck_marks_loser (i j : nat) objs obj other :
  (i < j)%nat ->
  objs !! i = Some obj -> objs !! j = Some other ->
  oid obj <> oid other -> isColliding obj other = true ->
  markedAt (collisionCheck objs) (loserOf i j obj other).
Proof.
  intros Hij Hi Hj Hid Hcol. unfold collisionCheck.
  set (k := loserOf i j obj other).
  set (Inv := fun s : list (Obj num) => clearFlag <$> s = clearFlag <$> objs).
  set (Q := fun s : list (Obj num) => markedAt s k).
  assert (Hinner : forall i' (js : list nat) s, Inv s ->
            Inv (fold_left (fun s j' => collidePair i' j' s) js s)).
  { intros i' js. apply fold_left_invariant.
    intros s j' Hs. unfold Inv. by rewrite collidePair_clearFlag. }
  assert (Hlen : forall s, Inv s -> length s = length objs).
  { intros s Hs. by rewrite <- (length_fmap clearFlag s), Hs, length_fmap. }
  assert (Hj_lt : (j < length objs)%nat) by by apply lookup_lt_is_Some.
  apply (fold_left_establish Inv Q _ i).
  - intros s i' Hs. by apply Hinner.
  - intros s i' Hs Hq.
    apply (fold_left_invariant Q); [|done].
    intros s' j' Hq'. by apply collidePair_keeps_markedAt.
  - intros s Hs.
    apply (fold_left_establish Inv Q _ j).
    + intros s' j' Hs'. unfold Inv. by rewrite collidePair_clearFlag.
    + intros s' j' _ Hq'. by apply collidePair_keeps_markedAt.
    + intros s' Hs'. apply (collidePair_marks_loser i j objs s' obj other); try done. lia.
    + apply elem_of_seq. rewrite (Hlen s Hs). lia.
    + done.
  - apply elem_of_seq. lia.
  - done.
Qed.

(** collisionCheck clears no flag. *)
Lemma collisionCheck_keeps_marks objs (k : nat) :
  markedAt objs k -> markedAt (collisionCheck objs) k.
Proof.
  intros Hk. unfold collisionCheck.
  apply (fold_left_invariant (fun s => markedAt s k)); [|done].
  intros s i Hs.
  apply (fold_left_invariant (fun s => markedAt s k)); [|done].
  intros s' j Hs'. by apply collidePair_keeps_markedAt.
Qed.

(** The flags collisionCheck leaves: those of the input and those with
    a cause, no others. *)
Lemma collisionCheck_flags objs (k : nat) b' :
  collisionCheck objs !! k = Some b' ->
  ocollided b' = true
  <-> (exists b, objs !! k = Some b /\ ocollided b = true) \/ markCause objs k.
Proof.
  intros Hk. split.
  - intros Hm. destruct (collisionCheck_markingInv objs) as [_ Hflags]. by eapply Hflags.
  - assert (Hget : markedAt (collisionCheck objs) k -> ocollided b' = true).
    { intros (b'' & Hk'' & Hm''). congruence. }
    intros [Hwas|(j & bk & bj & Hbk & Hbj & Hid & Hcause)]; apply Hget.
    + by apply collisionCheck_keeps_marks.
    + destruct Hcause as [(Hlt & Hcol & Hmass)|(Hlt & Hcol & Hmass)].
      * pose proof (collisionCheck_marks_loser k j objs bk bj Hlt Hbk Hbj Hid Hcol) as Hl.
        unfold loserOf in Hl. by rewrite Hmass in Hl.
      * pose proof (collisionCheck_marks_loser j k objs bj bk Hlt Hbj Hbk
                      (not_eq_sym Hid) Hcol) as Hl.
        unfold loserOf in Hl. by rewrite Hmass in Hl.
Qed.

(** C5 (amended).  The resolution of a colliding pair of bodies with
    distinct ids writes exactly one entry of the array, setting its flag
    [collided]: the lower-mass body when the masses differ, the second
    body of the pair when neither mass is lower; the other body of the
    pair is left as it was by that resolution.  Flags are never cleared
    during the pass, so when collisionCheck returns the body chosen by
    every colliding pair is marked (never neither).  The other body of a
    pair is marked at the end exactly when it was marked before the pass
    or is itself the body chosen by another colliding pair; so both can
    end the pass marked.  collisionCheck changes nothing but these
    flags, and the report of the tick shows the chosen body of every
    pair that overlaps after the integration loop with collided = true. *)
Theorem C5_pair_resolution_marks_the_lower_mass `{!JSNumberLaws num} :
  (forall (i j : nat) objs obj other,
      i <> j -> objs !! i = Some obj -> objs !! j = Some other ->
      oid obj <> oid other -> isColliding obj other = true ->
      let objs' := collidePair i j objs in
      ((omass obj <? omass other) = true ->
         objs' = <[i := set_ocollided true obj]> objs /\ objs' !! j = Some other)
      /\ ((omass other <? omass obj) = true ->
         objs' = <[j := set_ocollided true other]> objs /\ objs' !! i = Some obj)
      /\ ((omass obj <? omass other) = false -> (omass other <? omass obj) = false ->
         objs' = <[j := set_ocollided true other]> objs /\ objs' !! i = Some obj))
  /\ (forall objs (i j : nat) obj other,
        (i < j)%nat -> objs !! i = Some obj -> objs !! j = Some other ->
        oid obj <> oid other -> isColliding obj other = true ->
        markedAt (collisionCheck objs) (loserOf i j obj other))
  /\ (forall objs (k : nat) b',
        collisionCheck objs !! k = Some b' ->
        ocollided b' = true
        <-> (exists b, objs !! k = Some b /\ ocollided b = true) \/ markCause objs k)
  /\ (forall objs, clearFlag <$> collisionCheck objs = clearFlag <$> objs)
  /\ (forall now (this : GravSimCalc num) (i j : nat) obj other,
        let moved := reached (tickDt now this) (objects this) (length (objects this)) in
        (i < j)%nat -> moved !! i = Some obj -> moved !! j = Some other ->
        oid obj <> oid other -> isColliding obj other = true ->
        exists m, r_objects (snd (update now this)) !! loserOf i j obj other = Some m
                  /\ m_collided m = true
                  /\ m_id m = (if omass obj <? omass other then oid obj else oid other)).
Proof.
  split; [|split; [|split; [|split]]].
  - intros i j objs obj other Hij Hi Hj Hid Hcol objs'. subst objs'.
    unfold collidePair. rewrite Hi, Hj, Hcol.
    assert (Hne : negb (oid obj =? oid other)%Z = true).
    { apply negb_true_iff, Z.eqb_neq, Hid. }
    rewrite Hne.
    assert (Hfst : <[i := set_ocollided true obj]> objs !! j = Some other)
      by by rewrite list_lookup_insert_ne.
    assert (Hsnd : <[j := set_ocollided true other]> objs !! i = Some obj)
      by by rewrite list_lookup_insert_ne.
    destruct (omass obj <? omass other) eqn:Hlt.
    + split; [done|]. split.
      * intros Hgt. apply nlt_asym in Hgt. congruence.
      * intros Hgt. discriminate Hgt.
    + split; [intros Hgt; discriminate Hgt|]. split; done.
  - intros objs i j obj other. apply collisionCheck_marks_loser.
  - intros objs k b'. apply collisionCheck_flags.
  - apply collisionCheck_clearFlag.
  - intros now this i j obj other moved Hij Hi Hj Hid Hcol.
    pose proof (collisionCheck_marks_loser i j moved obj other Hij Hi Hj Hid Hcol)
      as (b & Hk & Hm).
    destruct (lookup_via_clearFlag moved _ _ b (collisionCheck_clearFlag moved) Hk)
      as (b0 & Hk0 & Hc).
    exists {| m_id := oid b;
              m_x := orElse (Some (ox b)) (nofZ 0);
              m_y := orElse (Some (oy b)) (nofZ 0);
              m_vx := orElse (Some (ovx b)) (nofZ 0);
              m_vy := orElse (Some (ovy b)) (nofZ 0);
              m_ax := orElse (Some (oax b)) (nofZ 0);
              m_ay := orElse (Some (oay b)) (nofZ 0);
              m_collided := ocollided b || false |}.
    split; [|split].
    + change (r_objects (snd (update now this)))
        with (convertToMessage (collisionCheck moved)).
      unfold convertToMessage. change (map ?f ?l) with (f <$> l).
      by rewrite list_lookup_fmap, Hk.
    + cbn [m_collided]. by rewrite Hm.
    + cbn [m_id]. rewrite (f_equal oid Hc : oid b = oid b0).
      unfold loserOf in Hk0. destruct (omass obj <? omass other); congruence.
Qed.

(** C6. Each tick advances every body by the two-stage scheme, in x and
    in y: with dt the step length of the tick, the body [b] at index [i]
    is replaced, when the loop of update reaches it, by the result of
    acceleration at the current position, v_half = v + a·dt/2,
    x += v_half·dt, acceleration at the new position and
    v = v_half + a_new·dt/2 (followed by the speed cap), computed against
    the array in which the bodies before [i] are already advanced.  That
    body, with the flag collisionCheck gives it, is the entry [i] of the
    array the tick reports, and it is in the state the tick leaves unless
    it is marked. *)
Theorem C6_tick_is_velocity_verlet (now : num) (this : GravSimCalc num) :
  let dt := tickDt now this in
  (forall b objs,
      let a := accumulate b objs in
      let vx_half := ovx b + fst a * dt / nofZ 2 in
      let vy_half := ovy b + snd a * dt / nofZ 2 in
      let x_new := ox b + vx_half * dt in
      let y_new := oy b + vy_half * dt in
      let a_new := accumulate (set_oy y_new (set_ox x_new b)) objs in
      verlet dt b objs
      = mkObj (oid b) x_new y_new
              (vx_half + fst a_new * dt / nofZ 2) (vy_half + snd a_new * dt / nofZ 2)
              (fst a_new) (snd a_new) (omass b) (oradius b) (ocollided b))
  /\ (forall (i : nat) b,
        objects this !! i = Some b ->
        let seen := reached dt (objects this) i in
        let b' := speedCap (verlet dt b seen) in
        seen !! i = Some b
        /\ moveObject dt seen i = <[i := b']> seen
        /\ reached dt (objects this) (S i) = <[i := b']> seen
        /\ exists c : bool,
             tickObjects now this !! i = Some (set_ocollided c b')
             /\ (exists m, r_objects (snd (update now this)) !! i = Some m
                           /\ convertToMessage [set_ocollided c b'] = [m])
             /\ (c = false -> set_ocollided c b' ∈ objects (fst (update now this))))
  /\ length (r_objects (snd (update now this))) = length (objects this)
  /\ deltaTime (snd (update now this)) = dt
  /\ lastTime (fst (update now this)) = now.
Proof.
  intros dt. split; [reflexivity|]. split; [|split; [|split; reflexivity]].
  - intros i b Hb seen b'.
    assert (Hseen : seen !! i = Some b) by by (unfold seen; rewrite reached_untouched).
    assert (Hstep : moveObject dt seen i = <[i := b']> seen)
      by by apply moveObject_insert.
    split; [done|]. split; [done|]. split; [by rewrite reached_S|].
    set (moved := reached dt (objects this) (length (objects this))).
    assert (Hmoved : moved !! i = Some b').
    { apply reached_done; [|done]. by apply lookup_lt_is_Some. }
    destruct (lookup_from_clearFlag moved (collisionCheck moved) i b'
                (collisionCheck_clearFlag moved) Hmoved) as (e & He & Hc).
    assert (Heta : e = set_ocollided (ocollided e) b')
      by (apply flag_eta; by symmetry).
    exists (ocollided e). rewrite <- Heta.
    split; [exact He|]. split.
    + eexists. split; [|reflexivity].
      change (r_objects (snd (update now this)))
        with (convertToMessage (collisionCheck moved)).
      unfold convertToMessage. change (map ?f ?l) with (f <$> l).
      by rewrite list_lookup_fmap, He.
    + intros Hclean.
      change (objects (fst (update now this)))
        with (filter (fun obj => ocollided obj = false) (collisionCheck moved)).
      apply list_elem_of_filter. split; [done|].
      apply list_elem_of_lookup. by exists i.
  - change (r_objects (snd (update now this)))
      with (convertToMessage (tickObjects now this)).
    unfold convertToMessage. rewrite length_map.
    rewrite <- (length_fmap oid), tickObjects_ids. by rewrite length_fmap.
Qed.

End TickClaims.

Section TickWitnesses.

Import Scenario.

Lemma C5_witness :
  markedAt (collisionCheck cluster) (loserOf 0 1 light heavy)
  /\ loserOf 0 1 light heavy = 0%nat.
Proof.
  destruct (C5_pair_resolution_marks_the_lower_mass (num := float))
    as (_ & Hpass & _).
  split; [|vm_compute; reflexivity].
  apply (Hpass cluster 0%nat 1%nat light heavy).
  - lia.
  - reflexivity.
  - reflexivity.
  - vm_compute. lia.
  - vm_compute. reflexivity.
Defined.

Lemma C6_witness :
  let this := mkCalc 0%float cluster 1%float in
  moveObject (tickDt 16%float this) cluster 0
  = <[0%nat := speedCap (verlet (tickDt 16%float this) light cluster)]> cluster.
Proof.
  intros this.
  destruct (C6_tick_is_velocity_verlet 16%float this) as (_ & Hbody & _).
  destruct (Hbody 0%nat light eq_refl) as (_ & Hmove & _).
  exact Hmove.
Defined.

End TickWitnesses.

Section RealPhysics.

Local Open Scope R_scope.
Implicit Types (b o : Obj R) (this : GravSimCalc R).

Lemma G_real : (G : R) = 66743 / 1000000000000000.
Proof.
  unfold G, decimal. cbn [nofZ ndiv R_JSNumber].
  by change (10 ^ Z.of_nat 15)%Z with 1000000000000000%Z.
Qed.

Lemma G_positive : 0 < (G : R).
Proof. rewrite G_real. lra. Qed.

Lemma contribution_real b o :
  contribution b o
  = (G * omass b * omass o / distSq b o / omass b * (ox o - ox b) / dist b o,
     G * omass b * omass o / distSq b o / omass b * (oy o - oy b) / dist b o).
Proof. reflexivity. Qed.

Lemma distSq_real b o :
  distSq b o = Rmax ((ox o - ox b) * (ox o - ox b) + (oy o - oy b) * (oy o - oy b))
                    ((oradius b + oradius o) * (oradius b + oradius o)).
Proof. reflexivity. Qed.

Lemma distSq_sym b o : distSq b o = distSq o b.
Proof. rewrite !distSq_real. f_equal; ring. Qed.

Lemma dist_sym b o : dist b o = dist o b.
Proof. unfold dist. by rewrite distSq_sym. Qed.

Lemma applyGravity_real b o :
  oax (applyGravity b o) = oax b + fst (contribution b o)
  /\ oay (applyGravity b o) = oay b + snd (contribution b o).
Proof. split; reflexivity. Qed.

Lemma contribution_opposite b o :
  omass b <> 0 -> omass o <> 0 ->
  omass b * fst (contribution b o) = - (omass o * fst (contribution o b))
  /\ omass b * snd (contribution b o) = - (omass o * snd (contribution o b)).
Proof.
  intros Hb Ho. rewrite !contribution_real. cbn [fst snd].
  rewrite (distSq_sym o b), (dist_sym o b).
  set (D := distSq b o). set (d := dist b o).
  assert (Hgen : forall u : R,
            omass b * (G * omass b * omass o / D / omass b * u / d)
            = - (omass o * (G * omass o * omass b / D / omass o * (- u) / d))).
  { intros u. unfold Rdiv.
    replace (omass b * (G * omass b * omass o * / D * / omass b * u * / d))
      with (omass b * / omass b * (G * omass b * omass o * / D * u * / d)) by ring.
    replace (- (omass o * (G * omass o * omass b * / D * / omass o * - u * / d)))
      with (omass o * / omass o * (G * omass b * omass o * / D * u * / d)) by ring.
    by rewrite !Rinv_r. }
  split.
  - rewrite (Hgen (ox o - ox b)). do 3 f_equal. unfold Rdiv. ring.
  - rewrite (Hgen (oy o - oy b)). do 3 f_equal. unfold Rdiv. ring.
Qed.

(** The pull has the sign of the offset to the other body. *)
Lemma pull_towards (mb mo D u : R) :
  mb <> 0 -> 0 < mo -> u <> 0 -> u * u <= D ->
  0 < G * mb * mo / D / mb * u / R_sqrt.sqrt D * u.
Proof.
  intros Hmb Hmo Hu HD.
  pose proof G_positive as HG.
  assert (Huu : 0 < u * u) by nra.
  assert (HDpos : 0 < D) by lra.
  assert (Hd : 0 < R_sqrt.sqrt D) by by apply sqrt_lt_R0.
  replace (G * mb * mo / D / mb * u / R_sqrt.sqrt D * u)
    with (G * mo * (u * u) * (/ D * / R_sqrt.sqrt D)) by (field; lra).
  apply Rmult_lt_0_compat; [|apply Rmult_lt_0_compat; by apply Rinv_0_lt_compat].
  apply Rmult_lt_0_compat; [|done]. by apply Rmult_lt_0_compat.
Qed.

Lemma contribution_towards b o :
  omass b <> 0 -> 0 < omass o ->
  (ox o <> ox b -> 0 < fst (contribution b o) * (ox o - ox b))
  /\ (oy o <> oy b -> 0 < snd (contribution b o) * (oy o - oy b)).
Proof.
  intros Hmb Hmo. rewrite contribution_real. cbn [fst snd].
  assert (HD : (ox o - ox b) * (ox o - ox b) + (oy o - oy b) * (oy o - oy b)
               <= distSq b o) by (rewrite distSq_real; apply Rmax_l).
  pose proof (Rle_0_sqr (ox o - ox b)) as Hx2.
  pose proof (Rle_0_sqr (oy o - oy b)) as Hy2.
  unfold Rsqr in Hx2, Hy2. unfold dist.
  split; intros Hne; apply pull_towards; try done.
  - intros Heq. apply Hne. lra.
  - lra.
  - intros Heq. apply Hne. lra.
  - lra.
Qed.

(** The acceleration updateGravity leaves on a body with one neighbour. *)
Lemma accumulate_pair b o :
  oid b <> oid o ->
  accumulate b [b; o] = (0 + fst (contribution b o), 0 + snd (contribution b o))
  /\ accumulate o [b; o] = (0 + fst (contribution o b), 0 + snd (contribution o b)).
Proof.
  intros Hid. unfold accumulate. cbn [fold_left].
  rewrite !Z.eqb_refl.
  assert (Hbo : (oid b =? oid o)%Z = false) by by apply Z.eqb_neq.
  assert (Hob : (oid o =? oid b)%Z = false) by by apply Z.eqb_neq, not_eq_sym.
  rewrite Hbo, Hob. cbn [fst snd]. done.
Qed.

(** X10. Equal and opposite pulls: for two bodies of nonzero mass, the
    mass of the first times the acceleration applyGravity adds to it for
    the second is the opposite of the mass of the second times the
    acceleration applyGravity adds to it for the first, in x and in y
    (exact arithmetic); the clamped distance is the same seen from either
    body, and a body of positive mass pulls the other one towards
    itself.  For an array of just these two bodies (distinct ids) the
    accelerations updateGravity stores for them are opposite in the same
    way. *)
Theorem X10_pulls_are_equal_and_opposite b o :
  omass b <> 0 -> omass o <> 0 ->
  omass b * (oax (applyGravity b o) - oax b)
  = - (omass o * (oax (applyGravity o b) - oax o))
  /\ omass b * (oay (applyGravity b o) - oay b)
     = - (omass o * (oay (applyGravity o b) - oay o))
  /\ distSq b o = distSq o b
  /\ (0 < omass o -> ox o <> ox b ->
      0 < (oax (applyGravity b o) - oax b) * (ox o - ox b))
  /\ (0 < omass o -> oy o <> oy b ->
      0 < (oay (applyGravity b o) - oay b) * (oy o - oy b))
  /\ (oid b <> oid o ->
      exists b' o',
        updateGravity 0 [b; o] !! 0%nat = Some b'
        /\ updateGravity 1 [b; o] !! 1%nat = Some o'
        /\ omass b * oax b' = - (omass o * oax o')
        /\ omass b * oay b' = - (omass o * oay o')).
Proof.
  intros Hb Ho.
  destruct (contribution_opposite b o Hb Ho) as [Hx Hy].
  destruct (applyGravity_real b o) as [Hbx Hby].
  destruct (applyGravity_real o b) as [Hox Hoy].
  split; [|split; [|split; [|split; [|split]]]].
  - rewrite Hbx, Hox.
    replace (oax b + fst (contribution b o) - oax b) with (fst (contribution b o)) by ring.
    replace (oax o + fst (contribution o b) - oax o) with (fst (contribution o b)) by ring.
    exact Hx.
  - rewrite Hby, Hoy.
    replace (oay b + snd (contribution b o) - oay b) with (snd (contribution b o)) by ring.
    replace (oay o + snd (contribution o b) - oay o) with (snd (contribution o b)) by ring.
    exact Hy.
  - apply distSq_sym.
  - intros Hmo Hne. rewrite Hbx.
    replace (oax b + fst (contribution b o) - oax b) with (fst (contribution b o)) by ring.
    by apply (contribution_towards b o Hb Hmo).
  - intros Hmo Hne. rewrite Hby.
    replace (oay b + snd (contribution b o) - oay b) with (snd (contribution b o)) by ring.
    by apply (contribution_towards b o Hb Hmo).
  - intros Hid. destruct (accumulate_pair b o Hid) as [Hab Hao].
    rewrite (updateGravity_insert 0 [b; o] b eq_refl).
    rewrite (updateGravity_insert 1 [b; o] o eq_refl).
    rewrite Hab, Hao.
    eexists. eexists. split; [reflexivity|]. split; [reflexivity|].
    cbn [oax oay withAccel set_oax set_oay fst snd].
    rewrite !Rplus_0_l. by split.
Qed.

Lemma component_below_dist (u w D : R) :
  0 < D -> u * u + w * w <= D -> Rabs (u / R_sqrt.sqrt D) <= 1.
Proof.
  intros HD Hle.
  assert (Hd : 0 < R_sqrt.sqrt D) by by apply sqrt_lt_R0.
  assert (Hsq : R_sqrt.sqrt D * R_sqrt.sqrt D = D) by (apply sqrt_sqrt; lra).
  unfold Rdiv. rewrite Rabs_mult, (Rabs_pos_eq (/ _)); [|left; by apply Rinv_0_lt_compat].
  apply (Rmult_le_reg_r (R_sqrt.sqrt D)); [done|].
  rewrite Rmult_assoc, Rinv_l, Rmult_1_r, Rmult_1_l by lra.
  destruct (Rle_dec (Rabs u) (R_sqrt.sqrt D)) as [Hok|Hbad]; [done|].
  exfalso. apply Rnot_le_lt in Hbad.
  assert (Habs : Rabs u * Rabs u = u * u).
  { unfold Rabs. destruct (Rcase_abs u); ring. }
  pose proof (Rabs_pos u). nra.
Qed.

Lemma contribution_bounded b o :
  0 < oradius b -> 0 < oradius o -> omass b <> 0 -> 0 <= omass o ->
  let bound := G * omass o / ((oradius b + oradius o) * (oradius b + oradius o)) in
  Rabs (fst (contribution b o)) <= bound
  /\ Rabs (snd (contribution b o)) <= bound.
Proof.
  intros Hrb Hro Hmb Hmo bound.
  pose proof G_positive as HG.
  set (rs2 := (oradius b + oradius o) * (oradius b + oradius o)) in *.
  assert (Hrs2 : 0 < rs2) by (unfold rs2; nra).
  assert (HD : rs2 <= distSq b o) by (rewrite distSq_real; apply Rmax_r).
  assert (HD' : (ox o - ox b) * (ox o - ox b) + (oy o - oy b) * (oy o - oy b)
                <= distSq b o) by (rewrite distSq_real; apply Rmax_l).
  assert (HDpos : 0 < distSq b o) by lra.
  assert (Hd : 0 < dist b o) by by apply sqrt_lt_R0.
  assert (Hscale : 0 <= G * omass o / distSq b o <= bound).
  { unfold bound, Rdiv. split.
    - apply Rmult_le_pos; [nra|]. left. by apply Rinv_0_lt_compat.
    - apply Rmult_le_compat_l; [nra|]. by apply Rinv_le_contravar. }
  assert (Hgen : forall u w : R,
            u * u + w * w <= distSq b o ->
            Rabs (G * omass b * omass o / distSq b o / omass b * u / dist b o) <= bound).
  { intros u w Huw.
    replace (G * omass b * omass o / distSq b o / omass b * u / dist b o)
      with (G * omass o / distSq b o * (u / dist b o)) by (field; lra).
    rewrite Rabs_mult, (Rabs_pos_eq (G * omass o / distSq b o)) by lra.
    pose proof (component_below_dist u w (distSq b o) HDpos Huw) as Hq.
    change (R_sqrt.sqrt (distSq b o)) with (dist b o) in Hq.
    pose proof (Rabs_pos (u / dist b o)) as Hq0.
    destruct Hscale as [Hs0 Hs1].
    apply Rle_trans with (G * omass o / distSq b o * 1); [|lra].
    by apply Rmult_le_compat_l. }
  rewrite contribution_real. cbn [fst snd]. split.
  - by apply (Hgen _ (oy o - oy b)).
  - apply (Hgen _ (ox o - ox b)). lra.
Qed.

(** X11. The clamp bounds the pull: for bodies with positive radii, a
    nonzero mass of the attracted body and a nonnegative mass of the
    attracting one, one call of applyGravity changes each component of
    the acceleration by at most G·m_o/(radiusSum)² in absolute value,
    however close the bodies are, and changes no other field (exact
    arithmetic). *)
Theorem X11_pull_is_bounded_by_the_clamp b o :
  0 < oradius b -> 0 < oradius o -> omass b <> 0 -> 0 <= omass o ->
  let bound := G * omass o / ((oradius b + oradius o) * (oradius b + oradius o)) in
  Rabs (oax (applyGravity b o) - oax b) <= bound
  /\ Rabs (oay (applyGravity b o) - oay b) <= bound
  /\ applyGravity b o
     = set_oay (oay (applyGravity b o)) (set_oax (oax (applyGravity b o)) b).
Proof.
  intros Hrb Hro Hmb Hmo bound.
  destruct (contribution_bounded b o Hrb Hro Hmb Hmo) as [Hx Hy].
  destruct (applyGravity_real b o) as [Hbx Hby].
  split; [|split].
  - rewrite Hbx.
    replace (oax b + fst (contribution b o) - oax b) with (fst (contribution b o)) by ring.
    exact Hx.
  - rewrite Hby.
    replace (oay b + snd (contribution b o) - oay b) with (snd (contribution b o)) by ring.
    exact Hy.
  - reflexivity.
Qed.

(** X12. The overlap test does not depend on the order of the pair (the
    choice of the body to mark does). *)
Theorem X12_isColliding_is_symmetric b o :
  isColliding b o = isColliding o b.
Proof.
  unfold isColliding. rewrite !nlt_real. f_equal; cbn [nadd nsub nmul R_JSNumber]; ring.
Qed.

(** X13. Simulated time adds up: over a trace without 'setTimeScale'
    the sum of the reported deltaTime values is the clock difference
    between the last tick and the initial lastTime, times
    31557600/1000·timeScale, whatever the spacing of the ticks (exact
    arithmetic). *)
Theorem X13_reported_time_adds_up (evs : list (Event R)) this :
  forallb (fun ev => negb (isSetTimeScale ev)) evs = true ->
  fold_right Rplus 0 (deltaTime <$> snd (run evs this))
  = (lastTime (fst (run evs this)) - lastTime this) * 31557600 / 1000 * timeScale this
  /\ timeScale (fst (run evs this)) = timeScale this.
Proof.
  revert this. induction evs as [|[now|cmd] evs IH]; intros this Hev; simpl.
  - split; [field|done].
  - simpl in Hev. destruct (IH (fst (update now this)) Hev) as [Hsum Hts].
    destruct (run evs _) as [final rs] eqn:Hrun.
    cbn [fst snd] in *. rewrite fmap_cons. cbn [fold_right].
    split; [|exact Hts]. rewrite Hsum.
    change (deltaTime _) with (tickDt now this).
    rewrite tickDt_real. cbn [lastTime timeScale fst update]. field.
  - simpl in Hev. apply andb_true_iff in Hev as [Hcmd Hev].
    destruct (IH (onmessage cmd this) Hev) as [Hsum Hts].
    assert (Hsame : lastTime (onmessage cmd this) = lastTime this
                    /\ timeScale (onmessage cmd this) = timeScale this).
    { destruct cmd as [data|id|data|ts|]; simpl in *; try done.
      by destruct (list_find _ _) as [[i o]|]. }
    destruct Hsame as [Hl Ht]. by rewrite Hsum, Hts, Hl, Ht.
Qed.

(** X14. A body alone in the array moves uniformly: with no other body
    its acceleration is reset to 0, and if its speed is at most C a tick
    advances the position by velocity·dt and keeps the velocity (exact
    arithmetic). *)
Theorem X14_single_body_moves_uniformly (now : R) (last ts : R) b :
  ocollided b = false -> speed b <= C ->
  let this := mkCalc last [b] ts in
  let dt := tickDt now this in
  objects (fst (update now this))
  = [mkObj (oid b) (ox b + ovx b * dt) (oy b + ovy b * dt) (ovx b) (ovy b) 0 0
           (omass b) (oradius b) false].
Proof.
  intros Hclean Hspeed this dt.
  assert (Hacc : forall b' : Obj R, oid b' = oid b -> accumulate b' [b] = (0, 0)).
  { intros b' Hid. unfold accumulate. simpl. by rewrite Hid, Z.eqb_refl. }
  assert (Hmove : moveObject dt [b] 0 = [speedCap (verlet dt b [b])]).
  { by rewrite (moveObject_insert dt [b] 0 b eq_refl). }
  assert (Hverlet : verlet dt b [b]
                    = mkObj (oid b) (ox b + ovx b * dt) (oy b + ovy b * dt) (ovx b) (ovy b)
                            0 0 (omass b) (oradius b) false).
  { unfold verlet. rewrite !Hacc by done. cbn [fst snd nadd nmul ndiv nofZ R_JSNumber].
    rewrite Hclean. f_equal; field. }
  assert (Hcap : speedCap (verlet dt b [b]) = verlet dt b [b]).
  { apply speedCap_below. rewrite Hverlet. exact Hspeed. }
  unfold update. cbn [fst objects]. unfold tickObjects. fold dt.
  change (fold_left (moveObject dt) (seq 0 (length (objects this))) (objects this))
    with (moveObject dt [b] 0).
  rewrite Hmove, Hcap, Hverlet.
  change (collisionCheck [?x]) with [x].
  apply filter_all. by apply Forall_singleton.
Qed.

End RealPhysics.

Section DoubleReports.

(** X15. No NaN position, velocity or acceleration reaches the host: on
    doubles each of the six kinematic fields of every entry of a tick's
    report is a number.  A field that is NaN, +0 or -0 in the worker's
    body is sent as +0 and every other value is sent as it is; the id and
    the flag are those of the body.  (deltaTime is posted as computed and
    is not covered.) *)
Theorem X15_report_has_no_NaN (objs : list (Obj float)) (m : Msg float) :
  m ∈ convertToMessage objs ->
  let sent (v w : float) :=
    PrimFloat.is_nan w = false
    /\ (PrimFloat.is_nan v = true \/ PrimFloat.eqb v 0%float = true -> w = 0%float)
    /\ (PrimFloat.is_nan v = false -> PrimFloat.eqb v 0%float = false -> w = v) in
  (exists b, b ∈ objs
     /\ m_id m = oid b /\ m_collided m = ocollided b
     /\ sent (ox b) (m_x m) /\ sent (oy b) (m_y m)
     /\ sent (ovx b) (m_vx m) /\ sent (ovy b) (m_vy m)
     /\ sent (oax b) (m_ax m) /\ sent (oay b) (m_ay m))
  /\ (forall (now : float) (this : GravSimCalc float),
        r_objects (snd (update now this)) = convertToMessage (tickObjects now this)).
Proof.
  intros Hm sent.
  assert (Hsent : forall v : float, sent v (orElse (Some v) (nofZ 0))).
  { intros v. unfold sent, orElse. cbn [nfalsy float_JSNumber].
    destruct (F64.falsy v) eqn:Hf; unfold F64.falsy in Hf.
    - split; [reflexivity|]. split; [reflexivity|].
      intros Hnan Hzero. change PrimFloat.zero with 0%float in Hf.
      rewrite Hnan, Hzero in Hf. discriminate Hf.
    - apply orb_false_elim in Hf as [Hzero Hnan].
      change PrimFloat.zero with 0%float in Hzero.
      split; [done|]. split; [|done].
      intros [Hn|Hz]; congruence. }
  split; [|reflexivity].
  unfold convertToMessage in Hm. change (map ?f ?l) with (f <$> l) in Hm.
  apply list_elem_of_fmap in Hm as (b & -> & Hb).
  exists b. cbn [m_x m_y m_vx m_vy m_ax m_ay m_id m_collided].
  split; [done|]. split; [done|]. split; [apply orb_false_r|].
  repeat (split; [apply Hsent|]). apply Hsent.
Qed.

End DoubleReports.

(* ================================================================== *)
(** * Properties of the host *)
(* ================================================================== *)

Section HostProperties.

Context {num : Type} `{JSNumber num}.
Local Open Scope js_scope.
Implicit Types (this obj target sun : View.GravSimObject num)
               (objs : list (View.GravSimObject num)) (m : Msg num).

Lemma addHistory_fields this :
  View.name (View.addHistory this) = View.name this
  /\ View.id (View.addHistory this) = View.id this
  /\ View.state (View.addHistory this) = View.state this
  /\ View.mass (View.addHistory this) = View.mass this
  /\ View.radius (View.addHistory this) = View.radius this.
Proof.
  unfold View.addHistory.
  destruct (negb _); [done|]. by destruct (View.isSun this).
Qed.

Lemma applyEntry_position m target :
  View.x (View.applyEntry m target) = View.m2pix (m_x m)
  /\ View.y (View.applyEntry m target) = View.m2pix (m_y m)
  /\ View.vx (View.applyEntry m target) = View.m2pix (m_vx m)
  /\ View.vy (View.applyEntry m target) = View.m2pix (m_vy m).
Proof.
  unfold View.applyEntry.
  set (t := View.mkGravSimObject _ _ _ _ _ _ _ _ _ _ _ _).
  assert (Ht : View.x (View.addHistory t) = View.x t /\ View.y (View.addHistory t) = View.y t
               /\ View.vx (View.addHistory t) = View.vx t
               /\ View.vy (View.addHistory t) = View.vy t).
  { unfold View.addHistory. destruct (negb _); [done|]. by destruct (View.isSun t). }
  destruct Ht as (Hx & Hy & Hvx & Hvy).
  destruct (m_collided m); [|by rewrite Hx, Hy, Hvx, Hvy].
  unfold View.setCollided. destruct (View.isSun _); simpl; by rewrite Hx, Hy, Hvx, Hvy.
Qed.

Lemma addHistory_length this :
  View.boundedTrail this -> View.boundedTrail (View.addHistory this).
Proof.
  unfold View.boundedTrail, View.addHistory. intros Hlen.
  destruct (negb _); [done|]. destruct (View.isSun this); [done|].
  assert (Hpos : (0 < View.HISTORY_LENGTH)%nat) by (unfold View.HISTORY_LENGTH; lia).
  unfold View.set_history. cbn [View.history]. rewrite length_app. cbn [length].
  destruct (View.HISTORY_LENGTH <=? length (View.history this))%nat eqn:Hfull.
  - apply Nat.leb_le in Hfull.
    destruct (View.history this) as [|p h]; cbn [length tail] in *; lia.
  - apply Nat.leb_gt in Hfull. lia.
Qed.

Lemma setCollided_history this :
  View.history (View.setCollided this) = View.history this.
Proof. unfold View.setCollided. by destruct (View.isSun this). Qed.

Lemma applyEntry_bounded m target :
  View.boundedTrail target -> View.boundedTrail (View.applyEntry m target).
Proof.
  intros Hlen. unfold View.applyEntry.
  set (t := View.mkGravSimObject _ _ _ _ _ _ _ _ _ _ _ _).
  assert (Ht : View.boundedTrail (View.addHistory t)) by by apply addHistory_length.
  destruct (m_collided m); [|done].
  unfold View.boundedTrail. by rewrite setCollided_history.
Qed.

Lemma updateObjectParams_Forall (Q : View.GravSimObject num -> Prop) data objs :
  (forall m target, Q target -> Q (View.applyEntry m target)) ->
  Forall Q objs -> Forall Q (View.updateObjectParams data objs).
Proof.
  intros HQ. unfold View.updateObjectParams.
  apply (fold_left_invariant (Forall Q)). intros s m Hs.
  destruct (list_find _ _) as [[i target]|] eqn:Hfind; [|done].
  apply list_find_Some in Hfind as (Hi & _ & _).
  apply Forall_insert; [done|]. apply HQ.
  rewrite Forall_forall in Hs. apply Hs. by eapply list_elem_of_lookup_2.
Qed.

Lemma step_bounded st objs :
  (forall obj, st = View.StAdd obj -> View.boundedTrail obj) ->
  Forall View.boundedTrail objs -> Forall View.boundedTrail (View.step st objs).
Proof.
  intros Hadd Hall. destruct st as [data|i| | |obj]; simpl.
  - apply updateObjectParams_Forall; [|done]. intros m target. apply applyEntry_bounded.
  - unfold View.removeObject. destruct (objs !! i) as [obj|] eqn:Hi; [|done]. simpl.
    apply Forall_insert; [done|]. unfold View.boundedTrail.
    rewrite setCollided_history. rewrite Forall_forall in Hall.
    apply Hall. by eapply list_elem_of_lookup_2.
  - unfold View.updateHistories. change (map ?f ?l) with (f <$> l).
    apply Forall_fmap. eapply Forall_impl; [exact Hall|].
    intros obj Hobj. unfold View.boundedTrail, View.updateHistory in *. simpl.
    destruct (View.isActive _); [done|]. destruct (View.isSun obj); [done|].
    destruct (0 <? _)%nat; [|done]. simpl.
    destruct (View.history obj) as [|p h]; simpl in *; lia.
  - unfold View.removeFinished. apply Forall_forall.
    intros obj [_ Hobj]%list_elem_of_filter. rewrite Forall_forall in Hall. by apply Hall.
  - apply Forall_app. split; [done|]. apply Forall_singleton. by apply Hadd.
Qed.

(** X16. Trails are bounded: addHistory appends the current position,
    dropping the oldest point once HISTORY_LENGTH (512) points are kept,
    and does nothing for the Sun or an object that is not active; no
    sequence of host steps makes a trail longer than HISTORY_LENGTH. *)
Theorem X16_trails_stay_bounded (sts : list (View.Step num)) objs :
  Forall View.boundedTrail objs ->
  (forall obj, View.StAdd obj ∈ sts -> View.boundedTrail obj) ->
  Forall View.boundedTrail (View.steps sts objs)
  /\ (forall this,
        View.isActive (View.state this) = true -> View.isSun this = false ->
        View.history (View.addHistory this)
        = (if (View.HISTORY_LENGTH <=? length (View.history this))%nat
           then tail (View.history this) else View.history this)
          ++ [(View.x this, View.y this)])
  /\ (forall this,
        View.isActive (View.state this) = false \/ View.isSun this = true ->
        View.addHistory this = this).
Proof.
  intros Hall Hadd. split; [|split].
  - revert objs Hall. unfold View.steps.
    induction sts as [|st sts IH]; intros objs Hall; simpl; [done|].
    apply IH.
    + intros obj Hobj. apply Hadd. by right.
    + apply step_bounded; [|done]. intros obj ->. apply Hadd. by left.
  - intros this Hact Hsun. unfold View.addHistory. by rewrite Hact, Hsun.
  - intros this [Hact|Hsun]; unfold View.addHistory.
    + by rewrite Hact.
    + rewrite Hsun. by destruct (negb _).
Qed.

Lemma updateHistory_step this :
  View.isActive (View.state this) = false -> View.isSun this = false ->
  View.history (View.updateHistory this) = tail (View.history this)
  /\ View.state (View.updateHistory this) = View.state this
  /\ View.name (View.updateHistory this) = View.name this.
Proof.
  intros Hact Hsun. unfold View.updateHistory. rewrite Hact, Hsun.
  destruct (View.history this) as [|p h] eqn:Hh; cbn [length Nat.ltb Nat.leb].
  - by rewrite Hh.
  - done.
Qed.

Lemma tail_drop {A : Type} (l : list A) (n : nat) : tail (drop n l) = drop (S n) l.
Proof.
  revert n. induction l as [|a l IH]; intros n; [by rewrite !drop_nil|].
  destruct n as [|n]; [by rewrite drop_0|]. simpl. apply IH.
Qed.

Lemma updateHistory_iter this (n : nat) :
  View.isActive (View.state this) = false -> View.isSun this = false ->
  View.history (Nat.iter n View.updateHistory this) = drop n (View.history this)
  /\ View.state (Nat.iter n View.updateHistory this) = View.state this
  /\ View.name (Nat.iter n View.updateHistory this) = View.name this.
Proof.
  intros Hact Hsun. induction n as [|n (IHh & IHs & IHn)].
  - simpl. by rewrite drop_0.
  - cbn [Nat.iter nat_rect].
    assert (Hact' : View.isActive (View.state (Nat.iter n View.updateHistory this)) = false)
      by by rewrite IHs.
    assert (Hsun' : View.isSun (Nat.iter n View.updateHistory this) = false)
      by (unfold View.isSun in *; by rewrite IHn).
    destruct (updateHistory_step _ Hact' Hsun') as (Hh & Hs & Hn).
    change (nat_rect _ this (fun _ => View.updateHistory) n)
      with (Nat.iter n View.updateHistory this) in *.
    by rewrite Hh, Hs, Hn, IHh, IHs, IHn, tail_drop.
Qed.

(** X17. A removed object fades out in as many frames as its trail has
    points: for a removed object other than the Sun, n calls of
    updateHistory leave the trail without its n oldest points, and the
    object is finished (so that removeFinished drops it) exactly when n
    has reached the length of the trail. *)
Theorem X17_removed_object_fades_out this (n : nat) :
  View.state this = Host.REMOVED -> View.isSun this = false ->
  View.history (Nat.iter n View.updateHistory this) = drop n (View.history this)
  /\ View.finished (Nat.iter n View.updateHistory this)
     = (length (View.history this) <=? n)%nat
  /\ (View.finished (Nat.iter n View.updateHistory this) = true ->
      View.removeFinished [Nat.iter n View.updateHistory this] = []).
Proof.
  intros Hst Hsun.
  assert (Hact : View.isActive (View.state this) = false) by by rewrite Hst.
  destruct (updateHistory_iter this n Hact Hsun) as (Hh & Hs & _).
  split; [done|]. split.
  - unfold View.finished. rewrite Hs, Hst, Hh, length_drop. simpl.
    destruct (length (View.history this) <=? n)%nat eqn:Hle.
    + apply Nat.leb_le in Hle. apply Nat.eqb_eq. lia.
    + apply Nat.leb_gt in Hle. apply Nat.eqb_neq. lia.
  - intros Hfin. unfold View.removeFinished. rewrite filter_cons.
    destruct (decide _) as [Hno|_]; [congruence|done].
Qed.

Lemma applyEntry_sun m target :
  View.isSun target = true -> View.state target = Host.ACTIVE ->
  View.name (View.applyEntry m target) = View.name target
  /\ View.id (View.applyEntry m target) = View.id target
  /\ View.state (View.applyEntry m target) = Host.ACTIVE
  /\ View.history (View.applyEntry m target) = View.history target.
Proof.
  intros Hsun Hact. unfold View.applyEntry, View.addHistory, View.setCollided.
  unfold View.isSun in *. simpl. rewrite Hact, Hsun. simpl.
  destruct (m_collided m); simpl; by rewrite ?Hsun.
Qed.

Lemma step_sunKept sun st objs :
  View.isSun sun = true -> View.sunKept sun objs -> View.sunKept sun (View.step st objs).
Proof.
  intros Hsun (sun' & H0 & Hn & Hi & Hs & Hh).
  assert (Hsun' : View.isSun sun' = true) by (unfold View.isSun in *; by rewrite Hn).
  destruct st as [data|i| | |obj]; simpl.
  - unfold View.updateObjectParams.
    apply (fold_left_invariant (View.sunKept sun)); [|by exists sun'].
    intros s m (s0 & Hs0 & Hn0 & Hi0 & Hst0 & Hh0).
    assert (Hsun0 : View.isSun s0 = true) by (unfold View.isSun in *; by rewrite Hn0).
    destruct (list_find _ _) as [[i target]|] eqn:Hfind; [|by exists s0].
    apply list_find_Some in Hfind as (Hi' & _ & _).
    destruct (decide (i = 0%nat)) as [->|Hne].
    + assert (target = s0) as -> by congruence.
      destruct (applyEntry_sun m s0 Hsun0 Hst0) as (Ha & Hb & Hc & Hd).
      exists (View.applyEntry m s0).
      split; [exact (lookup_insert_same _ _ _ _ Hs0)|]. by rewrite Ha, Hb, Hc, Hd.
    + exists s0. by rewrite list_lookup_insert_ne.
  - unfold View.removeObject. destruct (objs !! i) as [obj|] eqn:Hobj; [|by exists sun'].
    simpl. destruct (decide (i = 0%nat)) as [->|Hne].
    + assert (obj = sun') as -> by congruence.
      exists sun'. split; [|done].
      rewrite (lookup_insert_same _ _ _ _ H0). f_equal.
      unfold View.setCollided. by rewrite Hsun'.
    + exists sun'. by rewrite list_lookup_insert_ne.
  - exists sun'. split; [|done]. unfold View.updateHistories.
    change (map ?f ?l) with (f <$> l). rewrite list_lookup_fmap, H0. simpl. f_equal.
    unfold View.updateHistory. by rewrite Hs.
  - exists sun'. split; [|done]. unfold View.removeFinished.
    destruct objs as [|o objs]; [done|]. simpl in H0. injection H0 as ->.
    assert (Hfin : View.finished sun' = false) by (unfold View.finished; by rewrite Hs).
    rewrite filter_cons. by rewrite decide_True.
  - exists sun'. split; [|done]. by apply lookup_app_l_Some.
Qed.

(** X18. The host never lets go of its central body: an active object
    named Sun at the head of the array stays at the head, active, with its
    name, id and (empty or not) trail, through reports that mark it
    collided, removeObject, the fade-out loop, removeFinished and
    additions. *)
Theorem X18_host_keeps_the_sun (sts : list (View.Step num)) objs sun :
  objs !! 0%nat = Some sun ->
  View.isSun sun = true ->
  View.state sun = Host.ACTIVE ->
  View.sunKept sun (View.steps sts objs)
  /\ View.setCollided sun = sun
  /\ View.finished sun = false
  /\ View.core (View.setCollided sun) = Host.setCollided (View.core sun).
Proof.
  intros H0 Hsun Hact. split; [|split; [|split]].
  - unfold View.steps.
    apply (fold_left_invariant (View.sunKept sun)).
    + intros s st Hs. by apply step_sunKept.
    + by exists sun.
  - unfold View.setCollided. by rewrite Hsun.
  - unfold View.finished. by rewrite Hact.
  - unfold View.setCollided, View.core, Host.setCollided, View.isSun in *. simpl.
    by rewrite Hsun.
Qed.

(** X19. After a report the host no longer knows mass and radius, and the
    worker is not harmed by it: updateObjectParams stores NaN as mass and
    undefined as radius (the report carries neither), the 'update' (or
    'add') message built from such an object has no usable mass, and the
    worker's 'update' keeps the mass, radius and id of its body. *)
Theorem X19_worker_mass_survives_host_updates m target (b : Obj num) :
  let target' := View.applyEntry m target in
  View.mass target' = None
  /\ View.radius target' = None
  /\ d_mass (View.objectData target') = None
  /\ d_radius (View.objectData target') = None
  /\ d_id (View.objectData target') = View.id target
  /\ omass (objToUpdate (View.objectData target') b) = omass b
  /\ oradius (objToUpdate (View.objectData target') b) = oradius b
  /\ oid (objToUpdate (View.objectData target') b) = oid b
  /\ omass (newObj (View.objectData target')) = nofZ 1.
Proof.
  intros target'.
  assert (Hm : View.mass target' = None /\ View.radius target' = None
               /\ View.id target' = View.id target).
  { unfold target', View.applyEntry.
    set (t := View.mkGravSimObject _ _ _ _ _ _ _ _ _ _ _ _).
    destruct (addHistory_fields t) as (_ & Hi & _ & Hma & Hr).
    destruct (m_collided m); [|by rewrite Hma, Hr, Hi].
    unfold View.setCollided. destruct (View.isSun _); simpl; by rewrite Hma, Hr, Hi. }
  destruct Hm as (Hmass & Hrad & Hid).
  split; [done|]. split; [done|].
  unfold View.objectData. simpl. rewrite Hmass, Hrad, Hid. simpl. done.
Qed.

Lemma increment_exact (c : Z) :
  (0 <= c < 2 ^ 53)%Z -> View.increment c = (c + 1)%Z.
Proof.
  change (2 ^ 53)%Z with 9007199254740992%Z. intros Hc. unfold View.increment.
  change (2 ^ 53)%Z with 9007199254740992%Z.
  destruct (Z.leb_spec (Z.abs (c + 1)) 9007199254740992); [done|lia].
Qed.

Lemma increment_stuck : View.increment (2 ^ 53) = (2 ^ 53)%Z.
Proof. reflexivity. Qed.

Lemma constructAll_ids (args : list (string * num * num * num * num * num * num)) :
  forall c : Z,
    (0 <= c)%Z -> (c + Z.of_nat (length args) <= 2 ^ 53)%Z ->
    View.id <$> fst (View.constructAll c args)
    = (fun k => (c + Z.of_nat k)%Z) <$> seq 0 (length args)
    /\ snd (View.constructAll c args) = (c + Z.of_nat (length args))%Z.
Proof.
  induction args as [|[[[[[[n x] y] vx] vy] ma] r] args IH]; intros c Hc Hmax.
  - simpl. split; [done|lia].
  - cbn [View.constructAll]. unfold View.construct.
    cbn [length] in Hmax.
    rewrite increment_exact by lia.
    specialize (IH (c + 1)%Z).
    destruct (View.constructAll (c + 1) args) as [objs c'] eqn:Hall.
    cbn [fst snd] in *. destruct IH as [Hids Hc']; [lia|lia|].
    cbn [length seq]. rewrite !fmap_cons. cbn [View.id]. split; [|lia].
    rewrite Hids. f_equal; [lia|].
    rewrite <- fmap_S_seq, <- list_fmap_compose.
    apply list_fmap_ext. intros _ k _. simpl. lia.
Qed.

Lemma constructAll_stuck (args : list (string * num * num * num * num * num * num)) :
  View.id <$> fst (View.constructAll (2 ^ 53) args) = replicate (length args) (2 ^ 53)%Z
  /\ snd (View.constructAll (2 ^ 53) args) = (2 ^ 53)%Z.
Proof.
  induction args as [|[[[[[[n x] y] vx] vy] ma] r] args IH]; [done|].
  cbn [View.constructAll]. unfold View.construct. rewrite increment_stuck.
  destruct (View.constructAll (2 ^ 53) args) as [objs c'].
  cbn [fst snd] in *. destruct IH as [Hids Hc'].
  cbn [length replicate]. rewrite fmap_cons. cbn [View.id]. by rewrite Hids.
Qed.

Lemma constructAll_fresh (args : list (string * num * num * num * num * num * num)) :
  forall c : Z,
    Forall (fun obj => View.state obj = Host.ACTIVE /\ View.history obj = []
                       /\ View.ax obj = nofZ 0 /\ View.ay obj = nofZ 0)
           (fst (View.constructAll c args)).
Proof.
  induction args as [|[[[[[[n x] y] vx] vy] ma] r] args IH]; intros c; [by constructor|].
  cbn [View.constructAll]. unfold View.construct.
  specialize (IH (View.increment c)).
  destruct (View.constructAll (View.increment c) args) as [objs c']. cbn [fst] in *.
  by constructor.
Qed.

(** X20. The constructor hands out consecutive ids as long as the counter
    stays within the integers a double counts exactly: n objects built
    one after the other from a counter c >= 0 with c + n <= 2^53 get the
    ids c, c+1, ..., c+n-1 (all distinct, also as ids of the 'add'
    messages), the counter ends at c+n, and every object starts active
    with an empty trail and zero acceleration.  At 2^53 the counter no
    longer advances: every further object gets the id 2^53. *)
Theorem X20_constructor_ids_are_consecutive (c : Z)
    (args : list (string * num * num * num * num * num * num)) :
  (0 <= c)%Z -> (c + Z.of_nat (length args) <= 2 ^ 53)%Z ->
  View.id <$> fst (View.constructAll c args)
  = (fun k => (c + Z.of_nat k)%Z) <$> seq 0 (length args)
  /\ snd (View.constructAll c args) = (c + Z.of_nat (length args))%Z
  /\ NoDup (View.id <$> fst (View.constructAll c args))
  /\ Forall (fun obj => View.state obj = Host.ACTIVE /\ View.history obj = []
                        /\ View.ax obj = nofZ 0 /\ View.ay obj = nofZ 0)
            (fst (View.constructAll c args))
  /\ NoDup (d_id <$> (View.objectData <$> fst (View.constructAll c args)))
  /\ View.id <$> fst (View.constructAll (2 ^ 53) args) = replicate (length args) (2 ^ 53)%Z
  /\ snd (View.constructAll (2 ^ 53) args) = (2 ^ 53)%Z.
Proof.
  intros Hc Hmax.
  destruct (constructAll_ids args c Hc Hmax) as [Hids Hc'].
  destruct (constructAll_stuck args) as [Hstuck Hstuck'].
  assert (Hnd : NoDup (View.id <$> fst (View.constructAll c args))).
  { rewrite Hids. apply NoDup_fmap_2; [|apply NoDup_seq].
    intros k1 k2 Hk. lia. }
  split; [done|]. split; [done|]. split; [done|].
  split; [apply constructAll_fresh|].
  split; [by rewrite <- list_fmap_compose|]. done.
Qed.

End HostProperties.

Section HostReal.

Local Open Scope R_scope.
Implicit Types (obj : View.GravSimObject R).

Lemma pix2m_real (p : R) : View.pix2m p = p / 180 * 149597870700.
Proof. reflexivity. Qed.

Lemma m2pix_real (m : R) : View.m2pix m = m / 149597870700 * 180.
Proof. reflexivity. Qed.

Lemma orElse_zero_real (v : R) : orElse (Some v) (nofZ 0) = v.
Proof.
  unfold orElse. cbn [nfalsy nofZ R_JSNumber].
  destruct (Real.falsy v) eqn:Hf; [|done]. by apply Real_falsy_spec in Hf.
Qed.

(** X21. Pixels and metres convert back and forth without loss (exact
    arithmetic): m2pix and pix2m are inverse to each other, so the body
    the worker creates from an 'add' message has, converted back, the
    position and velocity of the host object, and a report entry turned
    into host coordinates carries the position of the worker's body. *)
Theorem X21_unit_conversions_round_trip :
  (forall p : R, View.m2pix (View.pix2m p) = p)
  /\ (forall m : R, View.pix2m (View.m2pix m) = m)
  /\ (forall obj,
        let b := newObj (View.objectData obj) in
        oid b = View.id obj
        /\ View.m2pix (ox b) = View.x obj /\ View.m2pix (oy b) = View.y obj
        /\ View.m2pix (ovx b) = View.vx obj /\ View.m2pix (ovy b) = View.vy obj)
  /\ (forall (b : Obj R) target m,
        m ∈ convertToMessage [b] ->
        View.x (View.applyEntry m target) = View.m2pix (ox b)
        /\ View.y (View.applyEntry m target) = View.m2pix (oy b)
        /\ View.pix2m (View.x (View.applyEntry m target)) = ox b
        /\ View.pix2m (View.y (View.applyEntry m target)) = oy b).
Proof.
  assert (Hrt : forall p : R, View.m2pix (View.pix2m p) = p).
  { intros p. rewrite m2pix_real, pix2m_real. field. }
  split; [done|]. split; [|split].
  - intros m. rewrite m2pix_real, pix2m_real. field.
  - intros obj b. subst b. cbn [newObj oid ox oy ovx ovy View.objectData d_id d_x d_y d_vx d_vy].
    rewrite !orElse_zero_real, !Hrt. done.
  - intros b target m Hm.
    unfold convertToMessage in Hm. cbn [map] in Hm.
    apply list_elem_of_singleton in Hm as ->.
    match goal with
    | |- context [View.applyEntry ?m target] =>
        destruct (applyEntry_position m target) as (Hx & Hy & _)
    end.
    rewrite Hx, Hy. cbn [m_x m_y]. rewrite !orElse_zero_real.
    split; [done|]. split; [done|].
    rewrite !m2pix_real, !pix2m_real. split; field.
Qed.

Lemma launchDt_real (s e : R) : View.launchDt s e = Rmax ((e - s) / 1000) (1 / 100).
Proof.
  unfold View.launchDt, View.TIME_SCALE, decimal. cbn [nmax nsub ndiv nofZ R_JSNumber].
  by change (10 ^ Z.of_nat 2)%Z with 100%Z.
Qed.

(** X22. A launch never divides by zero: the duration of the drag is
    clamped to at least 0.01, so it is positive even for a drag that ends
    before it starts; a drag without displacement gives zero velocity, and
    the launch speed per axis is at most the displacement times
    100/THROW_SCALE, converted to metres (exact arithmetic). *)
Theorem X22_launch_duration_is_clamped (startX startY startTime endX endY endTime : R) :
  let dt := View.launchDt startTime endTime in
  let v := View.launchVelocity startX startY startTime endX endY endTime in
  1 / 100 <= dt
  /\ (endTime - startTime <= 10 -> dt = 1 / 100)
  /\ (10 <= endTime - startTime -> dt = (endTime - startTime) / 1000)
  /\ (endX = startX -> fst v = 0)
  /\ (endY = startY -> snd v = 0)
  /\ Rabs (fst v) <= View.pix2m (Rabs (endX - startX) * 100 / 40000000000000000)
  /\ Rabs (snd v) <= View.pix2m (Rabs (endY - startY) * 100 / 40000000000000000).
Proof.
  intros dt v.
  assert (Hdt : dt = Rmax ((endTime - startTime) / 1000) (1 / 100)) by apply launchDt_real.
  assert (Hmin : 1 / 100 <= dt) by (rewrite Hdt; apply Rmax_r).
  assert (Hv : forall a b : R,
            View.pix2m ((a - b) / dt / View.THROW_SCALE)
            = (a - b) / dt / 40000000000000000 / 180 * 149597870700).
  { intros a b. by rewrite pix2m_real. }
  assert (Hbound : forall u : R,
            Rabs (u / dt / 40000000000000000 / 180 * 149597870700)
            <= Rabs u * 100 / 40000000000000000 / 180 * 149597870700).
  { intros u.
    replace (u / dt / 40000000000000000 / 180 * 149597870700)
      with (u * (/ dt * (149597870700 / 40000000000000000 / 180))) by (field; lra).
    assert (Hinv : 0 < / dt <= 100).
    { split; [apply Rinv_0_lt_compat; lra|].
      replace 100 with (/ (1 / 100)) by field.
      apply Rinv_le_contravar; lra. }
    rewrite Rabs_mult, (Rabs_pos_eq (/ dt * _)) by nra.
    pose proof (Rabs_pos u). nra. }
  split; [done|]. split; [|split; [|split; [|split; [|split]]]].
  - intros Hshort. rewrite Hdt. apply Rmax_right. lra.
  - intros Hlong. rewrite Hdt. apply Rmax_left. lra.
  - intros ->. subst v. unfold View.launchVelocity. cbn [fst]. fold dt.
    change (nsub startX startX) with (startX - startX). rewrite Hv. field. lra.
  - intros ->. subst v. unfold View.launchVelocity. cbn [snd]. fold dt.
    change (nsub startY startY) with (startY - startY). rewrite Hv. field. lra.
  - subst v. unfold View.launchVelocity. cbn [fst]. fold dt.
    change (nsub endX startX) with (endX - startX). rewrite Hv, pix2m_real. apply Hbound.
  - subst v. unfold View.launchVelocity. cbn [snd]. fold dt.
    change (nsub endY startY) with (endY - startY). rewrite Hv, pix2m_real. apply Hbound.
Qed.

End HostReal.

(* ================================================================== *)
(** * The further properties at concrete inputs *)
(* ================================================================== *)

Section FurtherWitnesses.

Import Scenario Sample.

Lemma X3_witness :
  nlt (nofZ 0) (timeScale (fst (run sunAndBlackHole (init (num := float))))) = true.
Proof.
  apply (X3_timeScale_stays_positive sunAndBlackHole init).
  vm_compute. reflexivity.
Defined.

Lemma X5_witness :
  NoDup (oid <$> objects (fst (run passingPair (init (num := float))))).
Proof.
  apply (X5_ids_stay_unique passingPair init).
  apply (bool_decide_unpack _). vm_compute. exact I.
Defined.

Lemma X9_witness :
  collisionCheck lightAndHeavy !! 1%nat = Some heavy.
Proof.
  apply (X9_strictly_heaviest_survives lightAndHeavy 1 heavy).
  - reflexivity.
  - reflexivity.
  - intros j o Hj Hid. destruct j as [|[|j]]; simpl in Hj.
    + injection Hj as <-. vm_compute. reflexivity.
    + injection Hj as <-. exfalso. by apply Hid.
    + discriminate Hj.
Defined.

Lemma X10_witness :
  (omass realA * (oax (applyGravity realA realB) - oax realA)
   = - (omass realB * (oax (applyGravity realB realA) - oax realB)))%R.
Proof.
  assert (Ha : (omass realA <> 0)%R) by (simpl; lra).
  assert (Hb : (omass realB <> 0)%R) by (simpl; lra).
  destruct (X10_pulls_are_equal_and_opposite realA realB Ha Hb) as (Hx & _).
  exact Hx.
Defined.

Lemma X11_witness :
  (Rabs (oax (applyGravity realA realB) - oax realA)
   <= G * omass realB / ((oradius realA + oradius realB) * (oradius realA + oradius realB)))%R.
Proof.
  assert (Hra : (0 < oradius realA)%R) by (simpl; lra).
  assert (Hrb : (0 < oradius realB)%R) by (simpl; lra).
  assert (Hma : (omass realA <> 0)%R) by (simpl; lra).
  assert (Hmb : (0 <= omass realB)%R) by (simpl; lra).
  destruct (X11_pull_is_bounded_by_the_clamp realA realB Hra Hrb Hma Hmb) as (Hx & _).
  exact Hx.
Defined.

Lemma X13_witness :
  timeScale (fst (run twoTicks (init (num := R)))) = timeScale (init (num := R)).
Proof.
  destruct (X13_reported_time_adds_up twoTicks init eq_refl) as (_ & Hts).
  exact Hts.
Defined.

Lemma X14_witness :
  objects (fst (update 16%R (mkCalc 0%R [realMoving] 1%R)))
  = [mkObj 0 (0 + 3 * tickDt 16%R (mkCalc 0%R [realMoving] 1%R))%R
             (0 + 4 * tickDt 16%R (mkCalc 0%R [realMoving] 1%R))%R
             3%R 4%R 0%R 0%R 1%R 1%R false].
Proof.
  apply (X14_single_body_moves_uniformly 16%R 0%R 1%R realMoving).
  - reflexivity.
  - rewrite speed_real, C_real. simpl.
    replace (3 * 3 + 4 * 4)%R with (5 * 5)%R by lra.
    rewrite sqrt_square; lra.
Defined.

Lemma X15_witness :
  PrimFloat.is_nan (m_x lightEntry) = false.
Proof.
  assert (Hin : lightEntry ∈ convertToMessage cluster).
  { apply list_elem_of_lookup. exists 0%nat. vm_compute. reflexivity. }
  destruct (X15_report_has_no_NaN cluster lightEntry Hin)
    as ((b & _ & _ & _ & (Hx & _) & _) & _).
  exact Hx.
Defined.

Lemma X16_witness :
  Forall View.boundedTrail
         (View.steps [View.StHistories; View.StRemoveFinished] [sun; removedRocket]).
Proof.
  assert (Hall : Forall View.boundedTrail [sun; removedRocket]).
  { repeat constructor; unfold View.boundedTrail, View.HISTORY_LENGTH; simpl; lia. }
  assert (Hadd : forall obj : View.GravSimObject float,
            View.StAdd obj ∈ [View.StHistories; View.StRemoveFinished] ->
            View.boundedTrail obj).
  { intros obj Hin. exfalso.
    apply elem_of_cons in Hin as [Hin|Hin]; [discriminate|].
    apply elem_of_cons in Hin as [Hin|Hin]; [discriminate|].
    by apply elem_of_nil in Hin. }
  destruct (X16_trails_stay_bounded [View.StHistories; View.StRemoveFinished]
              [sun; removedRocket] Hall Hadd) as (Hbounded & _).
  exact Hbounded.
Defined.

Lemma X17_witness :
  View.finished (Nat.iter 2 View.updateHistory removedRocket) = true
  /\ View.finished (Nat.iter 1 View.updateHistory removedRocket) = false.
Proof.
  assert (Hst : View.state removedRocket = Host.REMOVED) by reflexivity.
  assert (Hsun : View.isSun removedRocket = false) by reflexivity.
  destruct (X17_removed_object_fades_out removedRocket 2 Hst Hsun) as (_ & H2 & _).
  destruct (X17_removed_object_fades_out removedRocket 1 Hst Hsun) as (_ & H1 & _).
  split; [exact H2|exact H1].
Defined.

Lemma X18_witness :
  View.sunKept sun
    (View.steps [View.StRemove 0; View.StHistories; View.StRemoveFinished] [sun; rocket]).
Proof.
  assert (Hsun : View.isSun sun = true) by reflexivity.
  assert (Hact : View.state sun = Host.ACTIVE) by reflexivity.
  destruct (X18_host_keeps_the_sun
              [View.StRemove 0; View.StHistories; View.StRemoveFinished]
              [sun; rocket] sun eq_refl Hsun Hact) as (Hkept & _).
  exact Hkept.
Defined.

Lemma X20_witness :
  View.id <$> fst (View.constructAll 0 twoCalls) = [0%Z; 1%Z]
  /\ snd (View.constructAll 0 twoCalls) = 2%Z.
Proof.
  assert (Hc : (0 <= 0)%Z) by lia.
  assert (Hmax : (0 + Z.of_nat (length twoCalls) <= 2 ^ 53)%Z)
    by (vm_compute; discriminate).
  destruct (X20_constructor_ids_are_consecutive 0 twoCalls Hc Hmax) as (Hids & Hcnt & _).
  split; [exact Hids|exact Hcnt].
Defined.

End FurtherWitnesses.

Section RoundTrips.

Context {num : Type} `{JSNumber num}.
Implicit Types (this : GravSimCalc num) (data : Data num).

(** X23. Adding a body under an id that no body carries and removing
    that id again restores the state exactly. *)
Theorem X23_add_then_remove_restores data this :
  d_id data ∉ (oid <$> objects this) ->
  onmessage (CmdRemove (d_id data)) (onmessage (CmdAdd data) this) = this.
Proof.
  intros Hfresh. simpl. rewrite filter_app.
  rewrite filter_all.
  - rewrite filter_cons. simpl. destruct (decide _) as [Hne|_]; [done|].
    rewrite filter_nil, app_nil_r. apply calc_eta.
  - apply Forall_forall. intros b Hb Heq. apply Hfresh.
    apply list_elem_of_fmap. by exists b.
Qed.

End RoundTrips.

Section RealRoundTrips.

Local Open Scope R_scope.
Implicit Types (b : Obj R) (this : GravSimCalc R).

(** X24. An 'update' that repeats the current fields of the first body
    with its id changes nothing (exact arithmetic, where the only falsy
    number is 0). *)
Theorem X24_update_with_own_fields_is_identity this (i : nat) b :
  objects this !! i = Some b ->
  (forall (j : nat) b', (j < i)%nat -> objects this !! j = Some b' -> oid b' <> oid b) ->
  onmessage (CmdUpdate (ownData b)) this = this.
Proof.
  intros Hi Hfirst. simpl.
  assert (Hfind : list_find (fun obj : Obj R => oid obj = oid b) (objects this) = Some (i, b)).
  { apply list_find_Some. split; [done|]. split; [done|].
    intros j b' Hj Hlt. by apply (Hfirst j b'). }
  rewrite Hfind.
  assert (Hsame : objToUpdate (ownData b) b = b).
  { unfold objToUpdate, ownData. cbn [d_id d_x d_y d_vx d_vy d_ax d_ay d_mass].
    rewrite !orElse_zero_real.
    assert (Hm : orElse (Some (omass b)) (omass b) = omass b).
    { unfold orElse. by destruct (nfalsy (omass b)). }
    rewrite Hm. by destruct b. }
  rewrite Hsame, list_insert_id by done. apply calc_eta.
Qed.

Lemma verlet_zero_dt b (objs : list (Obj R)) :
  ox (speedCap (verlet 0 b objs)) = ox b /\ oy (speedCap (verlet 0 b objs)) = oy b.
Proof.
  assert (Hcap : forall b' : Obj R, ox (speedCap b') = ox b' /\ oy (speedCap b') = oy b').
  { intros b'. unfold speedCap. by destruct (nlt _ _). }
  destruct (Hcap (verlet 0 b objs)) as [-> ->].
  unfold verlet. cbn [ox oy nadd nmul ndiv nofZ R_JSNumber]. split; ring.
Qed.

(** X25. A tick of length zero moves nothing: when the clock reading
    equals lastTime, every body is reported and kept at the position it
    had (exact arithmetic), whatever the forces. *)
Theorem X25_zero_length_tick_keeps_positions (now : R) this :
  now = lastTime this ->
  (fun b => (oid b, ox b, oy b)) <$> tickObjects now this
  = (fun b => (oid b, ox b, oy b)) <$> objects this
  /\ deltaTime (snd (update now this)) = 0.
Proof.
  intros ->.
  assert (Hdt : tickDt (lastTime this) this = 0).
  { rewrite tickDt_real. field. }
  split; [|exact Hdt].
  unfold tickObjects. rewrite Hdt.
  rewrite (fmap_via_clearFlag (fun b => (oid b, ox b, oy b)) _ _
             (fun _ => eq_refl) (collisionCheck_clearFlag _)).
  apply move_loop_fmap. intros b objs.
  destruct (verlet_zero_dt b objs) as [Hx Hy].
  by rewrite Hx, Hy, moved_oid.
Qed.

End RealRoundTrips.

Section RoundTripWitnesses.

Import Scenario Sample.

Lemma X23_witness :
  onmessage (CmdRemove (d_id zeroMass)) (onmessage (CmdAdd zeroMass) (init (num := float)))
  = init.
Proof.
  apply (X23_add_then_remove_restores zeroMass init).
  simpl. apply not_elem_of_nil.
Defined.

Lemma X24_witness :
  onmessage (CmdUpdate (ownData realB)) realPair = realPair.
Proof.
  apply (X24_update_with_own_fields_is_identity realPair 1 realB).
  - reflexivity.
  - intros j b' Hlt Hj. destruct j as [|j]; [|lia].
    simpl in Hj. injection Hj as <-. simpl. lia.
Defined.

Lemma X25_witness :
  deltaTime (snd (update 5%R realPair)) = 0%R.
Proof.
  destruct (X25_zero_length_tick_keeps_positions 5%R realPair eq_refl) as (_ & Hdt).
  exact Hdt.
Defined.

End RoundTripWitnesses.
